(** * ContinuousArenaMalloc: the extent hooks of the continuous arena

    A shallow embedding of [Source/WTF/wtf/ContinuousArenaMalloc.cpp]:
    the three range predicates and the four extent hooks that the arena
    registers with jemalloc, over an explicit record of the class's
    static fields and an abstract operating system that answers [mmap].

    Addresses and sizes are the 64-bit unsigned values of [uintptr_t] and
    [size_t], kept in [Z] with the wrap-around written out.  [ASSERT] is
    modelled as enforced: a failed assertion ends the run in [Crash].

    The first part holds the definitions: the code, the readings of the
    spec it is compared with, and concrete platforms to run it on.  The
    second part holds the lemmas and the theorems. *)

From Stdlib Require Import ZArith Bool List Lia Sorted.
Import ListNotations.
Local Open Scope Z_scope.

(** * Part I: definitions *)

(** ** Machine words *)

Module Word.

Definition bits : Z := 64.
Definition modulus : Z := 2 ^ bits.

(** Reduction of an integer to [size_t] / [uintptr_t]. *)
Definition wrap (x : Z) : Z := x mod modulus.

Definition add (x y : Z) : Z := wrap (x + y).
Definition sub (x y : Z) : Z := wrap (x - y).
(** Unary minus on an unsigned word, as in [-alignment]. *)
Definition neg (x : Z) : Z := wrap (- x).
(** Bitwise complement, as in [~repr_mask]. *)
Definition compl (x : Z) : Z := wrap (Z.lnot x).

Definition in_range (x : Z) : Prop := 0 <= x < modulus.

End Word.

(** ** Helpers the file takes from elsewhere *)

(** Modelled from the spec: [hasOneBitSet] and [hasZeroOrOneBitsSet]
    live in wtf/MathExtras.h, which is not part of the sources at hand.
    The spec (4.3) reads the assertion as "alignment (power of two)";
    the definitions are the usual word tests [!((v - 1) & v)], with
    [&& v] for the strict one. *)
Definition hasZeroOrOneBitsSet (v : Z) : bool :=
  Z.land (Word.sub v 1) v =? 0.

Definition hasOneBitSet (v : Z) : bool :=
  hasZeroOrOneBitsSet v && negb (v =? 0).

(** Modelled from the spec: the compiler builtin [__builtin_align_up]
    (4.3 step 4, "candidate = alignUp(current, alignment)").  For a power
    of two it is the word computation [(p + (a - 1)) & -a]. *)
Definition builtin_align_up (p a : Z) : Z :=
  Z.land (Word.add p (Word.sub a 1)) (Word.neg a).

(** The mathematical rounding the builtin is compared with: the least
    multiple of [a] that is not below [p]. *)
Definition round_up (p a : Z) : Z := a * ((p + a - 1) / a).

Definition is_pow2 (a : Z) : Prop := exists k, 0 <= k < Word.bits /\ a = 2 ^ k.

(** ** The platform: operating system and capability runtime *)

(** Protection bits and mapping flags of [sys/mman.h], kept symbolic.
    [PROT_NONE] is the empty list of bits. *)
Inductive ProtBit : Set := PROT_READ | PROT_WRITE.
Inductive MapFlag : Set := MAP_ANON | MAP_PRIVATE | MAP_FIXED | MAP_GUARD.

Definition PROT_NONE : list ProtBit := [].

Definition NULL : Z := 0.
(** [MAP_FAILED] is [(void * ) -1]. *)
Definition MAP_FAILED : Z := Word.modulus - 1.

(** What the file consumes without defining it.  [mmap] is always called
    with [fd = -1] and [offset = 0], so these are left out.  A pointer is
    identified with its address; on a pure-capability build the tag and
    the length of a capability are read through the runtime. *)
Class Platform : Type := {
  OS : Type;
  mmap : OS -> Z -> Z -> list ProtBit -> list MapFlag -> OS * Z;
  CHERI_PURE_CAPABILITY : bool;
  cheri_representable_alignment_mask : Z -> Z;
  cheri_representable_length : Z -> Z;
  cheri_tag_get : Z -> bool;
  cheri_length_get : Z -> Z
}.

(** ** The static fields of the class *)

Record Arena : Type := mkArena {
  s_Initialized : bool;
  s_arenaIndex : Z;
  s_Start : Z;
  s_End : Z;
  s_Current : Z;
  (** the state of the mutex [s_Mutex] points to: [true] while held *)
  s_Mutex : bool
}.

Definition with_Current (v : Z) (ar : Arena) : Arena :=
  mkArena (s_Initialized ar) (s_arenaIndex ar)
          (s_Start ar) (s_End ar) v (s_Mutex ar).

Definition with_Mutex (held : bool) (ar : Arena) : Arena :=
  mkArena (s_Initialized ar) (s_arenaIndex ar)
          (s_Start ar) (s_End ar) (s_Current ar) held.

(** The window as [initialize] leaves it once the reservation at
    [area_start] has succeeded, before the hooks are registered. *)
Definition reserved (area_start k_AreaSize : Z) : Arena :=
  mkArena false 0 area_start (Word.add area_start k_AreaSize) area_start false.

(** ** Runs of the code *)

Section Model.

Context {P : Platform}.

(** A call returns a value and leaves the statics and the system in some
    state, or the process stops at a failed [ASSERT], or the call waits
    for a mutex that is held. *)
Inductive Outcome (A : Type) : Type :=
| Return (a : A) (ar : Arena) (os : OS)
| Crash
| Blocked.

Arguments Return {A} a ar os.
Arguments Crash {A}.
Arguments Blocked {A}.

Definition M (A : Type) : Type := Arena -> OS -> Outcome A.

Definition ret {A} (a : A) : M A := fun ar os => Return a ar os.

Definition bind {A B} (m : M A) (k : A -> M B) : M B :=
  fun ar os =>
    match m ar os with
    | Return a ar' os' => k a ar' os'
    | Crash => Crash
    | Blocked => Blocked
    end.

Notation "x <- m ;; k" := (bind m (fun x => k))
  (at level 61, m at next level, right associativity).
Notation "m ;; k" := (bind m (fun _ => k))
  (at level 61, right associativity).

(** Modelled from the spec: [ASSERT] comes from wtf/Assertions.h, which is
    not part of the sources at hand.  By the spec (7) a violated
    assertion "halts the process". *)
Definition ASSERT (b : bool) : M unit :=
  fun ar os => if b then Return tt ar os else Crash.

Definition read {A} (field : Arena -> A) : M A :=
  fun ar os => Return (field ar) ar os.

Definition write_Current (v : Z) : M unit :=
  fun ar os => Return tt (with_Current v ar) os.

(** [Mutex::tryLock]: takes the mutex when it is free and says so. *)
Definition tryLock : M bool :=
  fun ar os =>
    if s_Mutex ar then Return false ar os
    else Return true (with_Mutex true ar) os.

(** [MutexLocker locker(s_Mutex)] around a function body: the mutex is
    taken on entry and given back on every return. *)
Definition MutexLocker {A} (body : M A) : M A :=
  fun ar os =>
    if s_Mutex ar then Blocked
    else match body (with_Mutex true ar) os with
         | Return a ar' os' => Return a (with_Mutex false ar') os'
         | Crash => Crash
         | Blocked => Blocked
         end.

Definition sys_mmap (addr len : Z) (prot : list ProtBit)
    (flags : list MapFlag) : M Z :=
  fun ar os => let (os', r) := mmap os addr len prot flags in Return r ar os'.

(** Code under [#ifdef __CHERI_PURE_CAPABILITY__]. *)
Definition ifdef_purecap (m : M unit) : M unit :=
  if CHERI_PURE_CAPABILITY then m else ret tt.

(** ** Range validation *)

Definition isValidRange (addr size : Z) : M bool :=
  acquired <- tryLock ;;
  ASSERT (Bool.eqb acquired false) ;;
  s_start <- read s_Start ;;
  s_current <- read s_Current ;;
  s_end <- read s_End ;;
  ASSERT (negb (s_start =? NULL)) ;;
  ASSERT (s_current >=? s_start) ;;
  ASSERT (s_end >=? s_current) ;;
  let start := addr in
  let end_ := Word.add start size in
  if end_ <? start then ret false
  else
    let valid_start := s_start in
    let valid_end := s_end in
    ifdef_purecap (
      ASSERT (cheri_tag_get start) ;;
      ASSERT (cheri_tag_get end_) ;;
      ASSERT (cheri_tag_get valid_start) ;;
      ASSERT (cheri_tag_get valid_end)) ;;
    ret ((start >=? valid_start) &&
         (start <=? valid_end) &&
         (end_ >=? valid_start) &&
         (end_ <=? valid_end)).

(** [&&] evaluates its right operand only when the left one holds. *)
Definition isAllocatedRange (addr size : Z) : M bool :=
  valid <- isValidRange addr size ;;
  if valid then
    s_current <- read s_Current ;;
    ret (Word.add addr size <=? s_current)
  else ret false.

Definition isAvailableRange (addr size : Z) : M bool :=
  valid <- isValidRange addr size ;;
  if valid then
    s_current <- read s_Current ;;
    ret (addr >=? s_current)
  else ret false.

(** ** The extent hooks *)

(** The pure-capability block of [extentAlloc]: [size] and [alignment]
    are raised until the range is representable. *)
Definition representable (size alignment : Z) : M (Z * Z) :=
  let align_mask := Word.neg alignment in
  let repr_mask := Word.wrap (cheri_representable_alignment_mask size) in
  let repr_size := Word.wrap (cheri_representable_length size) in
  ASSERT (hasZeroOrOneBitsSet (Word.add (Word.compl repr_mask) 1)) ;;
  ASSERT (repr_size >=? size) ;;
  let alignment' := Word.neg (Z.land align_mask repr_mask) in
  ASSERT (hasOneBitSet alignment') ;;
  ret (repr_size, alignment').

(** The result is the returned pointer with the final values of [*zero]
    and [*commit].  [extent_hooks] and [arena_ind] are only logged. *)
Definition extentAlloc (new_addr size alignment : Z) (zero commit : bool)
    : M (Z * bool * bool) :=
  MutexLocker (
    if negb (new_addr =? NULL) || (size =? 0) then ret (NULL, zero, commit)
    else
      ASSERT (hasOneBitSet alignment) ;;
      sa <- (if CHERI_PURE_CAPABILITY then representable size alignment
             else ret (size, alignment)) ;;
      let size := fst sa in
      let alignment := snd sa in
      s_current <- read s_Current ;;
      let start := builtin_align_up s_current alignment in
      available <- isAvailableRange start size ;;
      if available then
        r <- sys_mmap start size [PROT_READ; PROT_WRITE]
                      [MAP_ANON; MAP_PRIVATE; MAP_FIXED] ;;
        if r =? MAP_FAILED then ret (NULL, zero, commit)
        else
          ifdef_purecap (
            ASSERT (r =? start) ;;
            ASSERT (cheri_length_get r =? size)) ;;
          write_Current (Word.add start size) ;;
          ret (r, true, true)
      else ret (NULL, zero, commit)).

Definition extentDestroy (addr size : Z) (committed : bool) : M unit :=
  MutexLocker (
    allocated <- isAllocatedRange addr size ;;
    ASSERT allocated ;;
    r <- sys_mmap addr size PROT_NONE [MAP_GUARD; MAP_FIXED] ;;
    ASSERT (r =? addr)).

Definition extentPurgeCommon (addr size offset length : Z) : M bool :=
  acquired <- tryLock ;;
  ASSERT (Bool.eqb acquired false) ;;
  ASSERT (offset <=? size) ;;
  ASSERT (Word.add offset length <=? size) ;;
  allocated <- isAllocatedRange addr size ;;
  ASSERT allocated ;;
  let start := Word.add addr offset in
  allocated' <- isAllocatedRange start length ;;
  ASSERT allocated' ;;
  r <- sys_mmap start length [PROT_READ; PROT_WRITE]
                [MAP_ANON; MAP_PRIVATE; MAP_FIXED] ;;
  ASSERT (r =? start) ;;
  ret false.

(** "For simplicity, just force all purges." *)
Definition extentPurgeLazy (addr size offset length : Z) : M bool :=
  MutexLocker (extentPurgeCommon addr size offset length).

Definition extentPurgeForced (addr size offset length : Z) : M bool :=
  MutexLocker (extentPurgeCommon addr size offset length).

End Model.

Arguments Return {P A} a ar os.
Arguments Crash {P A}.
Arguments Blocked {P A}.

(** ** Readings of the code

    What the spec says in its own words, the values the code returns
    when its assertions hold, and the assertions themselves as boolean
    tests. *)

Section Readings.

Context {P : Platform}.

(** The spec's reading of window membership (4.6): [addr + size] does not
    overflow the word, and both ends lie in [[base, end]]. *)
Definition in_window (ar : Arena) (addr size : Z) : Prop :=
  addr + size < Word.modulus /\
  (s_Start ar <= addr <= s_End ar) /\
  (s_Start ar <= addr + size <= s_End ar).

(** The value [isValidRange] returns when it returns. *)
Definition window_test (ar : Arena) (addr size : Z) : bool :=
  negb (Word.add addr size <? addr) &&
  ((addr >=? s_Start ar) && (addr <=? s_End ar) &&
   (Word.add addr size >=? s_Start ar) && (Word.add addr size <=? s_End ar)).

(** The assertions on the statics: the mutex is held, the window has
    been reserved and the cursor lies inside it. *)
Definition statics_checked (ar : Arena) : bool :=
  s_Mutex ar && negb (s_Start ar =? NULL) &&
  (s_Current ar >=? s_Start ar) && (s_End ar >=? s_Current ar).

(** The tag assertions: only on a pure-capability build, and only
    reached when the end of the range did not wrap. *)
Definition tags_checked (ar : Arena) (addr size : Z) : bool :=
  negb CHERI_PURE_CAPABILITY ||
  (Word.add addr size <? addr) ||
  (cheri_tag_get addr && cheri_tag_get (Word.add addr size) &&
   cheri_tag_get (s_Start ar) && cheri_tag_get (s_End ar)).

Definition range_checked (ar : Arena) (addr size : Z) : bool :=
  statics_checked ar && tags_checked ar addr size.

(** The value [isAllocatedRange] returns when it returns. *)
Definition allocated_test (ar : Arena) (addr size : Z) : bool :=
  window_test ar addr size && (Word.add addr size <=? s_Current ar).

(** The spec's reading of "allocated" (4.6): inside the window and
    ending at or before the cursor. *)
Definition in_allocated (ar : Arena) (addr size : Z) : Prop :=
  in_window ar addr size /\ addr + size <= s_Current ar.

(** The operating system's contract for [MAP_FIXED]: a mapping placed at
    a fixed address either fails or sits at that address. *)
Definition honours_MAP_FIXED : Prop :=
  forall os addr len prot flags,
    In MAP_FIXED flags ->
    snd (mmap os addr len prot flags) = MAP_FAILED \/
    snd (mmap os addr len prot flags) = addr.

(** Size and alignment after the pure-capability block of [extentAlloc]. *)
Definition widened_size (size : Z) : Z :=
  if CHERI_PURE_CAPABILITY
  then Word.wrap (cheri_representable_length size)
  else size.

Definition widened_alignment (size alignment : Z) : Z :=
  if CHERI_PURE_CAPABILITY
  then Word.neg (Z.land (Word.neg alignment)
                        (Word.wrap (cheri_representable_alignment_mask size)))
  else alignment.

(** The assertions of that block. *)
Definition widening_checked (size alignment : Z) : bool :=
  negb CHERI_PURE_CAPABILITY ||
  (hasZeroOrOneBitsSet
     (Word.add
        (Word.compl (Word.wrap (cheri_representable_alignment_mask size))) 1) &&
   (widened_size size >=? size) &&
   hasOneBitSet (widened_alignment size alignment)).

(** The address [extentAlloc] tries: the cursor aligned up. *)
Definition candidate (ar : Arena) (size alignment : Z) : Z :=
  builtin_align_up (s_Current ar) (widened_alignment size alignment).

(** All assertions [extentAlloc] meets before it asks for the mapping. *)
Definition alloc_checked (ar : Arena) (size alignment : Z) : bool :=
  hasOneBitSet alignment && widening_checked size alignment &&
  range_checked (with_Mutex true ar)
                (candidate ar size alignment) (widened_size size).

(** The assertions on the capability [mmap] returned. *)
Definition mapping_checked (r start size : Z) : bool :=
  negb CHERI_PURE_CAPABILITY ||
  ((r =? start) && (cheri_length_get r =? size)).

Definition RW : list ProtBit := [PROT_READ; PROT_WRITE].
Definition ANON_PRIVATE_FIXED : list MapFlag :=
  [MAP_ANON; MAP_PRIVATE; MAP_FIXED].

(** [extentAlloc] with the monad unfolded, for a call that finds the
    mutex free. *)
Definition alloc_unfolded (new_addr size alignment : Z) (zero commit : bool)
    (ar : Arena) (os : OS) : Outcome (Z * bool * bool) :=
  if negb (new_addr =? NULL) || (size =? 0)
  then Return (NULL, zero, commit) ar os
  else if alloc_checked ar size alignment then
    let start := candidate ar size alignment in
    let size' := widened_size size in
    if window_test ar start size' && (start >=? s_Current ar) then
      let r := snd (mmap os start size' RW ANON_PRIVATE_FIXED) in
      let os' := fst (mmap os start size' RW ANON_PRIVATE_FIXED) in
      if r =? MAP_FAILED then Return (NULL, zero, commit) ar os'
      else if mapping_checked r start size'
           then Return (r, true, true)
                       (with_Current (Word.add start size') ar) os'
           else Crash
    else Return (NULL, zero, commit) ar os
  else Crash.

(** On a pure-capability build: the runtime represents the request as
    it stands, and the capabilities involved pass the assertions. *)
Definition purecap_exact (ar : Arena) (size alignment : Z) : Prop :=
  CHERI_PURE_CAPABILITY = true ->
  widened_size size = size /\
  widened_alignment size alignment = alignment /\
  widening_checked size alignment = true /\
  tags_checked ar (candidate ar size alignment) size = true /\
  cheri_length_get (candidate ar size alignment) = size.

Definition GUARD_FIXED : list MapFlag := [MAP_GUARD; MAP_FIXED].

(** [ASSERT(isAllocatedRange(addr, size))] inside a hook. *)
Definition allocated_checked (ar : Arena) (addr size : Z) : bool :=
  range_checked (with_Mutex true ar) addr size && allocated_test ar addr size.

(** All assertions [extentPurgeCommon] meets before it asks for the
    mapping. *)
Definition purge_checked (ar : Arena) (addr size offset length : Z) : bool :=
  (offset <=? size) && (Word.add offset length <=? size) &&
  allocated_checked ar addr size &&
  allocated_checked ar (Word.add addr offset) length.

(** jemalloc's contract for the purge hooks: the hook returns [false]
    when the pages were purged and [true] when they were not. *)
Definition purge_succeeded (status : bool) : Prop := status = false.

(** One invocation of a hook by jemalloc, with its arguments. *)
Inductive Call : Type :=
| Alloc (new_addr size alignment : Z) (zero commit : bool)
| Destroy (addr size : Z) (committed : bool)
| PurgeLazy (addr size offset length : Z)
| PurgeForced (addr size offset length : Z).

Definition is_alloc (c : Call) : bool :=
  match c with Alloc _ _ _ _ _ => true | _ => false end.

(** The state a call leaves behind, when it returns. *)
Definition invoke (c : Call) (ar : Arena) (os : OS) : option (Arena * OS) :=
  match c with
  | Alloc new_addr size alignment zero commit =>
      match extentAlloc new_addr size alignment zero commit ar os with
      | Return _ ar' os' => Some (ar', os')
      | _ => None
      end
  | Destroy addr size committed =>
      match extentDestroy addr size committed ar os with
      | Return _ ar' os' => Some (ar', os')
      | _ => None
      end
  | PurgeLazy addr size offset length =>
      match extentPurgeLazy addr size offset length ar os with
      | Return _ ar' os' => Some (ar', os')
      | _ => None
      end
  | PurgeForced addr size offset length =>
      match extentPurgeForced addr size offset length ar os with
      | Return _ ar' os' => Some (ar', os')
      | _ => None
      end
  end.

(** The statics and the system after each call of a sequence; the
    sequence ends early at a call that does not return. *)
Fixpoint states_after (cs : list Call) (ar : Arena) (os : OS)
    : list (Arena * OS) :=
  match cs with
  | [] => []
  | c :: cs' =>
      match invoke c ar os with
      | Some (ar', os') => (ar', os') :: states_after cs' ar' os'
      | None => []
      end
  end.

Definition cursor_of (st : Arena * OS) : Z := s_Current (fst st).

(** The cursor lies inside the window. *)
Definition cursor_in_window (ar : Arena) : Prop :=
  s_Start ar <= s_Current ar <= s_End ar.

End Readings.

(** ** Concrete platforms used to run the model *)

Module Demo.

(** The system keeps a log of the mappings it was asked for. *)
Definition Log : Type := list (Z * Z * list ProtBit * list MapFlag).

(** A system that grants every mapping at the requested address, on a
    build without capabilities. *)
Definition plain : Platform := {|
  OS := Log;
  mmap := fun os a len prot flags => ((a, len, prot, flags) :: os, a);
  CHERI_PURE_CAPABILITY := false;
  cheri_representable_alignment_mask := fun _ => Word.modulus - 1;
  cheri_representable_length := fun len => len;
  cheri_tag_get := fun _ => true;
  cheri_length_get := fun _ => 0
|}.

(** A system that refuses every mapping. *)
Definition refusing : Platform := {|
  OS := Log;
  mmap := fun os a len prot flags => (os, MAP_FAILED);
  CHERI_PURE_CAPABILITY := false;
  cheri_representable_alignment_mask := fun _ => Word.modulus - 1;
  cheri_representable_length := fun len => len;
  cheri_tag_get := fun _ => true;
  cheri_length_get := fun _ => 0
|}.

(** A pure-capability build on which lengths up to a page are exactly
    representable and every capability carries its tag. *)
Definition purecap : Platform := {|
  OS := Log;
  mmap := fun os a len prot flags => ((a, len, prot, flags) :: os, a);
  CHERI_PURE_CAPABILITY := true;
  cheri_representable_alignment_mask := fun _ => Word.modulus - 1;
  cheri_representable_length := fun len => len;
  cheri_tag_get := fun _ => true;
  cheri_length_get := fun _ => 4096
|}.

(** A system that has not mapped anything yet. *)
Definition quiet : Log := [].

Definition base : Z := 2 ^ 20.

(** A window of [2^20] bytes at [base] with one page handed out, seen
    between two hook calls. *)
Definition idle : Arena :=
  mkArena true 1 base (base + 2 ^ 20) (base + 4096) false.

(** The same window seen from inside a hook, with the mutex held. *)
Definition busy : Arena := with_Mutex true idle.

(** A pure-capability build whose lengths are representable in units
    of 16 bytes only, so that sizes and alignments are really widened. *)
Definition coarse : Platform := {|
  OS := Log;
  mmap := fun os a len prot flags => ((a, len, prot, flags) :: os, a);
  CHERI_PURE_CAPABILITY := true;
  cheri_representable_alignment_mask := fun _ => Word.modulus - 16;
  cheri_representable_length := fun len => 16 * ((len + 15) / 16);
  cheri_tag_get := fun _ => true;
  cheri_length_get := fun _ => 112
|}.

End Demo.

(** ** A sequence of calls *)

Module Scenario.

(** Two allocations, then the first extent is purged in part and
    destroyed. *)
Definition calls : list Call :=
  [ Alloc NULL 4096 4096 false false;
    Alloc NULL 4096 8192 false false;
    PurgeLazy Demo.base 4096 0 1024;
    PurgeForced Demo.base 4096 1024 1024;
    Destroy Demo.base 4096 true ].

Definition start : Arena := reserved Demo.base (2 ^ 20).

End Scenario.

(** ** Extents along a sequence of calls *)

Section Extents.

Context {P : Platform}.

(** The spec's reading of "available" (4.6): inside the window and
    starting at or after the cursor. *)
Definition in_available (ar : Arena) (addr size : Z) : Prop :=
  in_window ar addr size /\ addr >= s_Current ar.

(** The value [isAvailableRange] returns when it returns. *)
Definition available_test (ar : Arena) (addr size : Z) : bool :=
  window_test ar addr size && (addr >=? s_Current ar).

(** The arguments of a call are values of [void *] and [size_t]. *)
Definition call_words (c : Call) : Prop :=
  match c with
  | Alloc new_addr size alignment _ _ =>
      Word.in_range new_addr /\ Word.in_range size /\ Word.in_range alignment
  | Destroy addr size _ =>
      Word.in_range addr /\ Word.in_range size
  | PurgeLazy addr size offset length
  | PurgeForced addr size offset length =>
      Word.in_range addr /\ Word.in_range size /\
      Word.in_range offset /\ Word.in_range length
  end.

(** The extent a call hands out: the address [extentAlloc] returned,
    when it is not null, with the (widened) size it mapped there. *)
Definition granted (c : Call) (ar : Arena) (os : OS) : option (Z * Z) :=
  match c with
  | Alloc new_addr size alignment zero commit =>
      match extentAlloc new_addr size alignment zero commit ar os with
      | Return (r, _, _) _ _ =>
          if r =? NULL then None else Some (r, widened_size size)
      | _ => None
      end
  | _ => None
  end.

(** The extents handed out along a sequence of calls, in order. *)
Fixpoint extents_of (cs : list Call) (ar : Arena) (os : OS)
    : list (Z * Z) :=
  match cs with
  | [] => []
  | c :: cs' =>
      match invoke c ar os with
      | Some (ar', os') =>
          match granted c ar os with
          | Some e => e :: extents_of cs' ar' os'
          | None => extents_of cs' ar' os'
          end
      | None => []
      end
  end.

(** The bytes handed out in all. *)
Definition total_size (es : list (Z * Z)) : Z :=
  fold_right Z.add 0 (map snd es).

(** The first extent ends where the second begins, or before. *)
Definition ends_before (e1 e2 : Z * Z) : Prop :=
  fst e1 + snd e1 <= fst e2.

End Extents.

(** ** States of the concrete platform *)

Module Further.

(** The state and the log after the second page of [Demo.idle] has been
    handed out at an alignment of 8192. *)
Definition after_alloc : Arena := with_Current (Demo.base + 12288) Demo.idle.
Definition log_alloc : Demo.Log :=
  [(Demo.base + 8192, 4096, RW, ANON_PRIVATE_FIXED)].

(** ... and after that extent has been destroyed again. *)
Definition log_destroy : Demo.Log :=
  (Demo.base + 8192, 4096, PROT_NONE, GUARD_FIXED) :: log_alloc.


End Further.

(** * Part II: lemmas and theorems *)

(** ** Words *)

Module WordFacts.

Import Word.

Lemma modulus_pos : 0 < modulus.
Proof. unfold modulus, bits. lia. Qed.

Lemma wrap_range x : in_range (wrap x).
Proof. unfold in_range, wrap. apply Z.mod_pos_bound, modulus_pos. Qed.

Lemma wrap_small x : in_range x -> wrap x = x.
Proof. unfold in_range, wrap. intros H. now apply Z.mod_small. Qed.

Lemma wrap_over x : modulus <= x < 2 * modulus -> wrap x = x - modulus.
Proof.
  intros H. unfold wrap.
  symmetry. apply Z.mod_unique with (q := 1); lia.
Qed.

Lemma land_wrap_r x y : in_range x -> Z.land x (wrap y) = Z.land x y.
Proof.
  intros Hx. unfold wrap, modulus.
  rewrite <- Z.land_ones by (unfold bits; lia).
  rewrite (Z.land_comm y), Z.land_assoc, Z.land_ones by (unfold bits; lia).
  fold modulus. now rewrite (Z.mod_small x) by exact Hx.
Qed.

End WordFacts.

(** ** Powers of two *)

Section PowersOfTwo.

Lemma pow2_bounds k : 0 <= k < Word.bits -> 0 < 2 ^ k < Word.modulus.
Proof.
  intros Hk. split; [apply Z.pow_pos_nonneg; lia|].
  unfold Word.modulus. apply Z.pow_lt_mono_r; lia.
Qed.

Lemma is_pow2_range a : is_pow2 a -> 0 < a < Word.modulus.
Proof. intros (k & Hk & ->). now apply pow2_bounds. Qed.

Lemma hasZeroOrOneBitsSet_pow2 k :
  0 <= k < Word.bits -> hasZeroOrOneBitsSet (2 ^ k) = true.
Proof.
  intros Hk. unfold hasZeroOrOneBitsSet, Word.sub.
  pose proof (pow2_bounds k Hk) as Hb.
  rewrite WordFacts.wrap_small by (unfold Word.in_range; lia).
  apply Z.eqb_eq.
  replace (2 ^ k - 1) with (Z.ones k) by (rewrite Z.ones_equiv; lia).
  rewrite Z.land_comm, Z.land_ones by lia.
  apply Z.mod_same. lia.
Qed.

Lemma hasOneBitSet_pow2 k :
  0 <= k < Word.bits -> hasOneBitSet (2 ^ k) = true.
Proof.
  intros Hk. unfold hasOneBitSet.
  rewrite hasZeroOrOneBitsSet_pow2 by exact Hk.
  pose proof (pow2_bounds k Hk).
  destruct (Z.eqb_spec (2 ^ k) 0); [lia | reflexivity].
Qed.

(** A positive word that shares no bit with its predecessor is a power of
    two: otherwise both keep the top bit. *)
Lemma land_pred_zero_pow2 v :
  0 < v -> Z.land (v - 1) v = 0 -> v = 2 ^ Z.log2 v.
Proof.
  intros Hpos Hland.
  destruct (Z.log2_spec v Hpos) as [Hlo Hhi].
  destruct (Z.eq_dec v (2 ^ Z.log2 v)) as [|Hne]; [assumption|exfalso].
  assert (Hlog : Z.log2 (v - 1) = Z.log2 v).
  { apply Z.log2_unique; [apply Z.log2_nonneg | lia]. }
  assert (Hb1 : Z.testbit (v - 1) (Z.log2 v) = true).
  { rewrite <- Hlog. apply Z.bit_log2.
    pose proof (Z.pow_pos_nonneg 2 (Z.log2 v)) as Hp.
    specialize (Hp ltac:(lia) (Z.log2_nonneg v)). lia. }
  assert (Hb2 : Z.testbit v (Z.log2 v) = true) by now apply Z.bit_log2.
  assert (Hb : Z.testbit (Z.land (v - 1) v) (Z.log2 v) = true).
  { now rewrite Z.land_spec, Hb1, Hb2. }
  rewrite Hland, Z.bits_0 in Hb. discriminate.
Qed.

Lemma hasOneBitSet_is_pow2 v :
  Word.in_range v -> hasOneBitSet v = true -> is_pow2 v.
Proof.
  unfold hasOneBitSet, hasZeroOrOneBitsSet, Word.sub, Word.in_range.
  intros Hr H. apply andb_prop in H as [Hland Hnz].
  apply Z.eqb_eq in Hland. apply negb_true_iff, Z.eqb_neq in Hnz.
  rewrite WordFacts.wrap_small in Hland by (unfold Word.in_range; lia).
  exists (Z.log2 v). split.
  - split; [apply Z.log2_nonneg|].
    apply Z.log2_lt_pow2; [lia|]. fold Word.modulus. lia.
  - apply land_pred_zero_pow2; [lia | exact Hland].
Qed.

Lemma is_pow2_hasOneBitSet v : is_pow2 v -> hasOneBitSet v = true.
Proof. intros (k & Hk & ->). now apply hasOneBitSet_pow2. Qed.

End PowersOfTwo.

(** ** Rounding up to a power of two *)

Section AlignUp.

Variables (p a : Z).
Hypothesis Hp : Word.in_range p.
Hypothesis Ha : is_pow2 a.

Lemma round_up_spec :
  p <= round_up p a < p + a /\ round_up p a mod a = 0.
Proof.
  pose proof (is_pow2_range a Ha) as Hr. unfold round_up.
  pose proof (Z.div_mod (p + a - 1) a ltac:(lia)) as Hdm.
  pose proof (Z.mod_pos_bound (p + a - 1) a ltac:(lia)) as Hmb.
  split; [lia|].
  rewrite Z.mul_comm. apply Z.mod_mul. lia.
Qed.

Lemma round_up_least m : p <= m -> m mod a = 0 -> round_up p a <= m.
Proof.
  intros Hle Hm. pose proof (is_pow2_range a Ha) as Hr.
  apply Z.mod_divide in Hm; [|lia]. destruct Hm as [q ->].
  unfold round_up. rewrite (Z.mul_comm q a).
  apply Z.mul_le_mono_nonneg_l; [lia|].
  enough ((p + a - 1) / a < q + 1) by lia.
  apply Z.div_lt_upper_bound; [lia|]. nia.
Qed.

(** Masking with [-a] clears the low bits. *)
Lemma land_neg_pow2 x :
  Word.in_range x -> Z.land x (Word.neg a) = a * (x / a).
Proof.
  intros Hx. destruct Ha as (k & Hk & ->).
  unfold Word.neg. rewrite WordFacts.land_wrap_r by exact Hx.
  replace (- 2 ^ k) with (Z.lnot (Z.ones k))
    by (rewrite Z.ones_equiv; unfold Z.lnot; lia).
  rewrite <- Z.ldiff_land, Z.ldiff_ones_r by lia.
  rewrite Z.shiftl_mul_pow2, Z.shiftr_div_pow2 by lia. lia.
Qed.

Lemma builtin_align_up_word :
  builtin_align_up p a = a * (Word.wrap (p + a - 1) / a).
Proof.
  pose proof (is_pow2_range a Ha) as Hr.
  unfold builtin_align_up, Word.add, Word.sub.
  rewrite (WordFacts.wrap_small (a - 1)) by (unfold Word.in_range; lia).
  rewrite land_neg_pow2 by apply WordFacts.wrap_range.
  do 3 f_equal. lia.
Qed.

(** Without wrap-around the builtin is the mathematical rounding. *)
Lemma builtin_align_up_exact :
  p + a - 1 < Word.modulus -> builtin_align_up p a = round_up p a.
Proof.
  intros Hfit. pose proof (is_pow2_range a Ha) as Hr.
  rewrite builtin_align_up_word, WordFacts.wrap_small; [reflexivity|].
  unfold Word.in_range in *. lia.
Qed.

(** When the sum wraps, the result falls strictly below the pointer. *)
Lemma builtin_align_up_wrapped :
  Word.modulus <= p + a - 1 -> builtin_align_up p a < p.
Proof.
  intros Hover. pose proof (is_pow2_range a Ha) as Hr.
  unfold Word.in_range in Hp.
  rewrite builtin_align_up_word, WordFacts.wrap_over by lia.
  pose proof (Z.mul_div_le (p + a - 1 - Word.modulus) a ltac:(lia)). lia.
Qed.

Lemma builtin_align_up_range : Word.in_range (builtin_align_up p a).
Proof.
  pose proof (is_pow2_range a Ha) as Hr.
  rewrite builtin_align_up_word.
  pose proof (WordFacts.wrap_range (p + a - 1)) as Hw. unfold Word.in_range in *.
  pose proof (Z.mul_div_le (Word.wrap (p + a - 1)) a ltac:(lia)).
  pose proof (Z.div_pos (Word.wrap (p + a - 1)) a ltac:(lia) ltac:(lia)).
  nia.
Qed.

(** A result that is not below the pointer was computed without wrap. *)
Lemma builtin_align_up_ge :
  p <= builtin_align_up p a -> builtin_align_up p a = round_up p a.
Proof.
  intros Hge. apply builtin_align_up_exact.
  destruct (Z_lt_le_dec (p + a - 1) Word.modulus) as [|Hover]; [assumption|].
  pose proof (builtin_align_up_wrapped Hover). lia.
Qed.

End AlignUp.

(** A constant is a word when the two comparisons evaluate to [true]. *)
Lemma in_range_const x :
  (0 <=? x) && (x <? Word.modulus) = true -> Word.in_range x.
Proof. unfold Word.in_range. intros H. apply andb_prop in H. lia. Qed.

(** ** What the range predicates compute *)

Section RangeFacts.

Context {P : Platform}.

Ltac unfold_run :=
  unfold isAvailableRange, isAllocatedRange, isValidRange, bind, ret,
         ASSERT, read, tryLock, ifdef_purecap.

Lemma isValidRange_eq ar os addr size :
  isValidRange addr size ar os =
  if range_checked ar addr size
  then Return (window_test ar addr size) ar os
  else Crash.
Proof.
  unfold range_checked, statics_checked, tags_checked, window_test.
  unfold_run.
  destruct (s_Mutex ar) eqn:Hm; simpl; [|reflexivity].
  destruct (s_Start ar =? NULL); simpl; [reflexivity|].
  destruct (s_Current ar >=? s_Start ar); simpl; [|reflexivity].
  destruct (s_End ar >=? s_Current ar); simpl; [|reflexivity].
  destruct (Word.add addr size <? addr); simpl.
  { now rewrite orb_true_r. }
  rewrite orb_false_r.
  destruct CHERI_PURE_CAPABILITY; simpl; [|reflexivity].
  destruct (cheri_tag_get addr); simpl; [|reflexivity].
  destruct (cheri_tag_get (Word.add addr size)); simpl; [|reflexivity].
  destruct (cheri_tag_get (s_Start ar)); simpl; [|reflexivity].
  destruct (cheri_tag_get (s_End ar)); reflexivity.
Qed.

Lemma isAllocatedRange_eq ar os addr size :
  isAllocatedRange addr size ar os =
  if range_checked ar addr size
  then Return (window_test ar addr size &&
               (Word.add addr size <=? s_Current ar)) ar os
  else Crash.
Proof.
  unfold isAllocatedRange, bind. rewrite isValidRange_eq.
  destruct (range_checked ar addr size); [|reflexivity].
  destruct (window_test ar addr size); reflexivity.
Qed.

Lemma isAvailableRange_eq ar os addr size :
  isAvailableRange addr size ar os =
  if range_checked ar addr size
  then Return (window_test ar addr size && (addr >=? s_Current ar)) ar os
  else Crash.
Proof.
  unfold isAvailableRange, bind. rewrite isValidRange_eq.
  destruct (range_checked ar addr size); [|reflexivity].
  destruct (window_test ar addr size); reflexivity.
Qed.

(** The sum of two words wraps exactly when it comes out below the first. *)
Lemma add_wraps addr size :
  Word.in_range addr -> Word.in_range size ->
  (Word.add addr size <? addr) = false <-> addr + size < Word.modulus.
Proof.
  unfold Word.in_range, Word.add. intros Ha Hs.
  rewrite Z.ltb_ge. split; intros H.
  - destruct (Z_lt_le_dec (addr + size) Word.modulus) as [|Hover]; [lia|].
    rewrite WordFacts.wrap_over in H by lia. lia.
  - rewrite WordFacts.wrap_small by (unfold Word.in_range; lia). lia.
Qed.

Lemma add_exact addr size :
  Word.in_range addr -> Word.in_range size ->
  addr + size < Word.modulus -> Word.add addr size = addr + size.
Proof.
  unfold Word.in_range, Word.add. intros.
  apply WordFacts.wrap_small. unfold Word.in_range. lia.
Qed.

Lemma window_test_spec ar addr size :
  Word.in_range addr -> Word.in_range size ->
  window_test ar addr size = true <-> in_window ar addr size.
Proof.
  intros Ha Hs. unfold window_test, in_window.
  rewrite andb_true_iff, negb_true_iff, add_wraps by assumption.
  split.
  - intros [Hfit H]. rewrite add_exact in H by assumption.
    rewrite !andb_true_iff in H. lia.
  - intros (Hfit & H1 & H2). split; [exact Hfit|].
    rewrite add_exact by assumption.
    rewrite !andb_true_iff. lia.
Qed.

End RangeFacts.

(** ** Range validation: the claims *)

Section RangeClaims.

Context {P : Platform}.

(** C4. [isValidRange addr size] returns [true] exactly when the unsigned
    sum [addr + size] does not wrap and both [addr] and [addr + size] lie
    in [[s_Start, s_End]], ends included.  Whatever it returns, it leaves
    the statics and the system as they were; it does return when its
    assertions on the statics and the tags hold. *)
Theorem isValidRange_in_window ar os addr size :
  Word.in_range addr -> Word.in_range size ->
  (forall b ar' os',
      isValidRange addr size ar os = Return b ar' os' ->
      ar' = ar /\ os' = os /\ (b = true <-> in_window ar addr size)) /\
  (range_checked ar addr size = true ->
   exists b, isValidRange addr size ar os = Return b ar os /\
             (b = true <-> in_window ar addr size)).
Proof.
  intros Ha Hs. rewrite isValidRange_eq.
  destruct (range_checked ar addr size); split.
  - intros b ar' os' H. injection H as <- <- <-.
    split; [reflexivity | split; [reflexivity|]].
    now apply window_test_spec.
  - intros _. eexists. split; [reflexivity|]. now apply window_test_spec.
  - discriminate.
  - discriminate.
Qed.

(** C5. [isAllocatedRange] returns [true] exactly when [isValidRange]
    does and [addr + size <= s_Current]; [isAvailableRange] returns [true]
    exactly when [isValidRange] does and [addr >= s_Current]. *)
Theorem isAllocatedRange_isAvailableRange_spec ar os addr size :
  Word.in_range addr -> Word.in_range size ->
  (isAllocatedRange addr size ar os = Return true ar os <->
   isValidRange addr size ar os = Return true ar os /\
   addr + size <= s_Current ar) /\
  (isAvailableRange addr size ar os = Return true ar os <->
   isValidRange addr size ar os = Return true ar os /\
   addr >= s_Current ar).
Proof.
  intros Ha Hs.
  rewrite isAllocatedRange_eq, isAvailableRange_eq, isValidRange_eq.
  destruct (range_checked ar addr size).
  2: { split; split; intros H; try discriminate; destruct H; discriminate. }
  destruct (window_test ar addr size) eqn:Hw; simpl.
  2: { split; split; intros H; try discriminate; destruct H; discriminate. }
  apply window_test_spec in Hw; [|assumption..].
  destruct Hw as (Hfit & _ & _).
  rewrite add_exact by assumption.
  split; split.
  - intros H. injection H as H. split; [reflexivity | lia].
  - intros [_ H]. f_equal. lia.
  - intros H. injection H as H. split; [reflexivity | lia].
  - intros [_ H]. f_equal. lia.
Qed.

(** C10. For a size above zero, [isAllocatedRange] and [isAvailableRange]
    never both return [true] on the same range in the same state. *)
Theorem allocated_available_exclusive ar os addr size :
  Word.in_range addr -> Word.in_range size -> 0 < size ->
  ~ (isAllocatedRange addr size ar os = Return true ar os /\
     isAvailableRange addr size ar os = Return true ar os).
Proof.
  intros Ha Hs Hpos [H1 H2].
  rewrite isAllocatedRange_eq in H1. rewrite isAvailableRange_eq in H2.
  destruct (range_checked ar addr size); [|discriminate].
  injection H1 as H1. injection H2 as H2.
  apply andb_prop in H1 as [Hw H1]. apply andb_prop in H2 as [_ H2].
  apply window_test_spec in Hw; [|assumption..].
  destruct Hw as (Hfit & _ & _).
  rewrite add_exact in H1 by assumption. lia.
Qed.

End RangeClaims.

Lemma isValidRange_in_window_witness :
  exists b,
    isValidRange (P := Demo.plain) Demo.base 4096 Demo.busy Demo.quiet =
      Return (P := Demo.plain) b Demo.busy Demo.quiet /\
    (b = true <-> in_window Demo.busy Demo.base 4096).
Proof.
  apply (isValidRange_in_window (P := Demo.plain) Demo.busy Demo.quiet Demo.base 4096).
  - apply in_range_const. reflexivity.
  - apply in_range_const. reflexivity.
  - reflexivity.
Defined.

Lemma isAllocatedRange_isAvailableRange_spec_witness :
  (isAllocatedRange (P := Demo.plain) Demo.base 4096 Demo.busy Demo.quiet =
     Return (P := Demo.plain) true Demo.busy Demo.quiet <->
   isValidRange (P := Demo.plain) Demo.base 4096 Demo.busy Demo.quiet =
     Return (P := Demo.plain) true Demo.busy Demo.quiet /\
   Demo.base + 4096 <= s_Current Demo.busy) /\
  (isAvailableRange (P := Demo.plain) Demo.base 4096 Demo.busy Demo.quiet =
     Return (P := Demo.plain) true Demo.busy Demo.quiet <->
   isValidRange (P := Demo.plain) Demo.base 4096 Demo.busy Demo.quiet =
     Return (P := Demo.plain) true Demo.busy Demo.quiet /\
   Demo.base >= s_Current Demo.busy).
Proof.
  apply (isAllocatedRange_isAvailableRange_spec (P := Demo.plain)).
  - apply in_range_const. reflexivity.
  - apply in_range_const. reflexivity.
Defined.

Lemma allocated_available_exclusive_witness :
  ~ (isAllocatedRange (P := Demo.plain) Demo.base 4096 Demo.busy Demo.quiet =
       Return (P := Demo.plain) true Demo.busy Demo.quiet /\
     isAvailableRange (P := Demo.plain) Demo.base 4096 Demo.busy Demo.quiet =
       Return (P := Demo.plain) true Demo.busy Demo.quiet).
Proof.
  apply (allocated_available_exclusive (P := Demo.plain)).
  - apply in_range_const. reflexivity.
  - apply in_range_const. reflexivity.
  - reflexivity.
Defined.

(** ** What the allocation hook computes *)

Section AllocFacts.

Context {P : Platform}.

Lemma unlock_lock ar :
  s_Mutex ar = false -> with_Mutex false (with_Mutex true ar) = ar.
Proof. destruct ar as [i n s e c m]; simpl. now intros ->. Qed.

Lemma unlock_with_Current v ar :
  s_Mutex ar = false ->
  with_Mutex false (with_Current v (with_Mutex true ar)) = with_Current v ar.
Proof. destruct ar as [i n s e c m]; simpl. now intros ->. Qed.

Lemma representable_eq size alignment ar os :
  CHERI_PURE_CAPABILITY = true ->
  representable size alignment ar os =
  if widening_checked size alignment
  then Return (widened_size size, widened_alignment size alignment) ar os
  else Crash.
Proof.
  intros Hc.
  unfold representable, widening_checked, widened_size, widened_alignment,
         bind, ret, ASSERT.
  rewrite Hc; simpl.
  destruct (hasZeroOrOneBitsSet _); simpl; [|reflexivity].
  destruct (_ >=? size); simpl; [|reflexivity].
  destruct (hasOneBitSet _); reflexivity.
Qed.

Lemma extentAlloc_eq new_addr size alignment zero commit ar os :
  extentAlloc new_addr size alignment zero commit ar os =
  if s_Mutex ar then Blocked
  else alloc_unfolded new_addr size alignment zero commit ar os.
Proof.
  unfold extentAlloc, MutexLocker, alloc_unfolded.
  destruct (s_Mutex ar) eqn:Hm; [reflexivity|].
  destruct (negb (new_addr =? NULL) || (size =? 0)).
  { unfold ret. now rewrite unlock_lock. }
  unfold alloc_checked, candidate, bind at 1, ASSERT at 1.
  destruct (hasOneBitSet alignment); simpl; [|reflexivity].
  unfold bind at 1.
  assert (Hwiden :
    (if CHERI_PURE_CAPABILITY
     then representable size alignment
     else ret (size, alignment)) (with_Mutex true ar) os =
    if widening_checked size alignment
    then Return (widened_size size, widened_alignment size alignment)
                (with_Mutex true ar) os
    else Crash).
  { destruct CHERI_PURE_CAPABILITY eqn:Hc.
    - now apply representable_eq.
    - unfold widening_checked, widened_size, widened_alignment, ret.
      now rewrite Hc. }
  rewrite Hwiden. clear Hwiden.
  destruct (widening_checked size alignment); simpl; [|reflexivity].
  unfold bind at 1, read at 1. unfold bind at 1.
  rewrite isAvailableRange_eq. simpl.
  destruct (range_checked _ _ _); [|reflexivity].
  change (window_test (with_Mutex true ar)) with (window_test ar).
  destruct (window_test ar _ _ && _).
  2: { unfold ret. now rewrite unlock_lock. }
  unfold bind at 1, sys_mmap.
  change [PROT_READ; PROT_WRITE] with RW.
  change [MAP_ANON; MAP_PRIVATE; MAP_FIXED] with ANON_PRIVATE_FIXED.
  destruct (mmap os _ _ _ _) as [os' r]. simpl.
  destruct (r =? MAP_FAILED).
  { unfold ret. now rewrite unlock_lock. }
  unfold mapping_checked, ifdef_purecap, bind, ret, ASSERT, write_Current.
  destruct CHERI_PURE_CAPABILITY; simpl.
  - destruct (r =? _); simpl; [|reflexivity].
    destruct (cheri_length_get r =? _); simpl; [|reflexivity].
    now rewrite unlock_with_Current.
  - now rewrite unlock_with_Current.
Qed.

End AllocFacts.

Section AllocShapes.

Context {P : Platform}.

(** The two ways [extentAlloc] returns: it declines and touches nothing,
    or it maps the candidate and moves the cursor past it. *)
Lemma extentAlloc_cases new_addr size alignment zero commit ar os r z c ar' os' :
  extentAlloc new_addr size alignment zero commit ar os = Return (r, z, c) ar' os' ->
  (r = NULL /\ z = zero /\ c = commit /\ ar' = ar) \/
  (let start := candidate ar size alignment in
   let size' := widened_size size in
   size <> 0 /\
   alloc_checked ar size alignment = true /\
   window_test ar start size' = true /\
   s_Current ar <= start /\
   r = snd (mmap os start size' RW ANON_PRIVATE_FIXED) /\
   os' = fst (mmap os start size' RW ANON_PRIVATE_FIXED) /\
   r <> MAP_FAILED /\
   mapping_checked r start size' = true /\
   z = true /\ c = true /\
   ar' = with_Current (Word.add start size') ar).
Proof.
  rewrite extentAlloc_eq. unfold alloc_unfolded.
  destruct (s_Mutex ar); [discriminate|].
  destruct (negb (new_addr =? NULL) || (size =? 0)) eqn:Hreject.
  { intros H. injection H as <- <- <- <- <-. now left. }
  apply orb_false_elim in Hreject as [_ Hsize]. apply Z.eqb_neq in Hsize.
  destruct (alloc_checked ar size alignment); [|discriminate].
  destruct (window_test ar _ _) eqn:Hw; simpl.
  2: { intros H. injection H as <- <- <- <- <-. now left. }
  destruct (_ >=? s_Current ar) eqn:Hge; simpl.
  2: { intros H. injection H as <- <- <- <- <-. now left. }
  destruct (_ =? MAP_FAILED) eqn:Hfail.
  { intros H. injection H as <- <- <- <- <-. now left. }
  destruct (mapping_checked _ _ _) eqn:Hmc; [|discriminate].
  intros H. injection H as <- <- <- <- <-. right.
  apply Z.eqb_neq in Hfail.
  repeat split; try reflexivity; try assumption. lia.
Qed.

(** Under the [MAP_FIXED] contract the mapping sits at the candidate. *)
Lemma mapped_at_candidate os start size' :
  honours_MAP_FIXED ->
  snd (mmap os start size' RW ANON_PRIVATE_FIXED) <> MAP_FAILED ->
  snd (mmap os start size' RW ANON_PRIVATE_FIXED) = start.
Proof.
  intros Hfixed Hok.
  destruct (Hfixed os start size' RW ANON_PRIVATE_FIXED) as [H|H].
  - simpl. auto.
  - contradiction.
  - exact H.
Qed.

Lemma pow2_divides_modulus a : is_pow2 a -> (a | Word.modulus).
Proof.
  intros (k & Hk & ->). exists (2 ^ (Word.bits - k)).
  unfold Word.modulus. rewrite <- Z.pow_add_r by lia. f_equal. lia.
Qed.

(** What the assertions say about the widened request: the alignment is
    a power of two that the requested one divides, and the size did not
    shrink. *)
Lemma widened_request size alignment :
  Word.in_range alignment ->
  hasOneBitSet alignment = true ->
  widening_checked size alignment = true ->
  is_pow2 (widened_alignment size alignment) /\
  widened_alignment size alignment mod alignment = 0 /\
  size <= widened_size size.
Proof.
  intros Hr Hone Hw.
  pose proof (hasOneBitSet_is_pow2 _ Hr Hone) as Hpow.
  pose proof (is_pow2_range _ Hpow) as Hpos.
  unfold widening_checked, widened_alignment, widened_size in *.
  destruct CHERI_PURE_CAPABILITY; simpl in Hw.
  - apply andb_prop in Hw as [Hw Hone'].
    apply andb_prop in Hw as [_ Hsize].
    split; [|split].
    + apply hasOneBitSet_is_pow2; [apply WordFacts.wrap_range | exact Hone'].
    + rewrite Z.land_comm, (land_neg_pow2 alignment Hpow)
        by apply WordFacts.wrap_range.
      unfold Word.neg, Word.wrap.
      rewrite Z.mod_mod_divide by now apply pow2_divides_modulus.
      rewrite <- Z.mul_opp_r, Z.mul_comm. apply Z.mod_mul. lia.
    + lia.
  - split; [exact Hpow|]. split; [apply Z.mod_same; lia | lia].
Qed.

Lemma mod_divides_trans r a b : 0 < b -> 0 < a -> r mod a = 0 -> a mod b = 0 -> r mod b = 0.
Proof.
  intros Hb Ha Hr Hab.
  apply Z.mod_divide in Hr; [|lia]. apply Z.mod_divide in Hab; [|lia].
  apply Z.mod_divide; [lia|]. now apply Z.divide_trans with a.
Qed.

End AllocShapes.

(** ** The allocation hook: the claims *)

Section AllocClaims.

Context {P : Platform}.

(** C1. When [extentAlloc] returns an address other than null, that
    address is the cursor at entry aligned up to the (widened) alignment:
    the least multiple of it not below the cursor, hence also a multiple
    of the requested alignment.  The range of the (widened) size from
    there lies in [[s_Start, s_End)], [*zero] and [*commit] are [true],
    and the cursor has moved to exactly the end of that range while the
    other statics are as before.  On a build without capabilities the
    widened size and alignment are the requested ones. *)
Theorem extentAlloc_success
    new_addr size alignment zero commit ar os r z c ar' os' :
  honours_MAP_FIXED ->
  Word.in_range (s_Current ar) ->
  Word.in_range size -> Word.in_range alignment ->
  extentAlloc new_addr size alignment zero commit ar os = Return (r, z, c) ar' os' ->
  r <> NULL ->
  let a := widened_alignment size alignment in
  let n := widened_size size in
  (CHERI_PURE_CAPABILITY = false -> a = alignment /\ n = size) /\
  r = builtin_align_up (s_Current ar) a /\
  (s_Current ar <= r /\ r mod a = 0 /\ r mod alignment = 0 /\
   forall m, s_Current ar <= m -> m mod a = 0 -> r <= m) /\
  (0 < size <= n /\ s_Start ar <= r /\ r + n <= s_End ar) /\
  (z = true /\ c = true) /\
  ar' = with_Current (r + n) ar.
Proof.
  intros Hfixed Hcur Hsize Halign Hrun Hnz a n.
  split.
  { unfold a, n, widened_alignment, widened_size. now intros ->. }
  apply extentAlloc_cases in Hrun.
  destruct Hrun as [(Hnull & _) | Hok]; [contradiction|].
  cbv zeta in Hok.
  destruct Hok as (Hsz & Hchk & Hwin & Hge & Hr & Hos & Hmap & _ & -> & -> & ->).
  rewrite Hr in Hmap. apply (mapped_at_candidate _ _ _ Hfixed) in Hmap.
  rewrite Hmap in Hr. clear Hmap. subst r.
  unfold alloc_checked in Hchk.
  apply andb_prop in Hchk as [Hchk Hrange].
  apply andb_prop in Hchk as [Hone Hwiden].
  destruct (widened_request size alignment Halign Hone Hwiden)
    as (Hpow & Hdiv & Hgrow).
  fold a n in Hpow, Hdiv, Hgrow, Hwin, Hge |- *.
  pose proof (is_pow2_range _ Hpow) as Hapos.
  pose proof (is_pow2_range _ (hasOneBitSet_is_pow2 _ Halign Hone)) as Halpos.
  unfold candidate in *. fold a in Hwin, Hge |- *.
  pose proof (builtin_align_up_range _ _ Hcur Hpow) as Hstart.
  pose proof (builtin_align_up_ge _ _ Hcur Hpow Hge) as Hround.
  destruct (round_up_spec (s_Current ar) a Hpow) as [Hbounds Hmult].
  assert (Hn : Word.in_range n).
  { unfold n, widened_size. destruct CHERI_PURE_CAPABILITY;
      [apply WordFacts.wrap_range | exact Hsize]. }
  apply window_test_spec in Hwin; [|assumption..].
  destruct Hwin as (Hfit & Hlo & Hhi).
  assert (Hpos : 0 < size) by (unfold Word.in_range in Hsize; lia).
  split; [reflexivity|]. split.
  { rewrite Hround. repeat split; try lia.
    - eapply mod_divides_trans with a; lia.
    - intros m Hm Hma. now apply round_up_least. }
  split; [lia|]. split; [now split|].
  now rewrite add_exact.
Qed.

(** A candidate whose range would end past the window is not available. *)
Lemma exhausted_unavailable ar size alignment :
  Word.in_range (s_Current ar) ->
  Word.in_range (widened_size size) ->
  is_pow2 (widened_alignment size alignment) ->
  s_End ar < round_up (s_Current ar) (widened_alignment size alignment)
             + widened_size size ->
  window_test ar (candidate ar size alignment) (widened_size size) &&
  (candidate ar size alignment >=? s_Current ar) = false.
Proof.
  intros Hcur Hn Hpow Hover.
  destruct (_ && _) eqn:H; [exfalso | reflexivity].
  apply andb_prop in H as [Hwin Hge]. unfold candidate in *.
  rewrite (builtin_align_up_ge _ _ Hcur Hpow) in Hwin by lia.
  apply window_test_spec in Hwin.
  - unfold in_window in Hwin. lia.
  - rewrite <- (builtin_align_up_ge _ _ Hcur Hpow) by lia.
    now apply builtin_align_up_range.
  - exact Hn.
Qed.

(** C3. [extentAlloc] returns null and leaves every static field as it
    was when a fixed address is requested or the size is zero, when the
    aligned candidate range ends past the window, and when the system
    refuses the mapping.  In the first two cases the system is not even
    asked.  (The last two presuppose that the hook's assertions hold;
    otherwise the process stops instead of returning.) *)
Theorem extentAlloc_declines new_addr size alignment zero commit ar os :
  s_Mutex ar = false ->
  Word.in_range (s_Current ar) ->
  Word.in_range size -> Word.in_range alignment ->
  let a := widened_alignment size alignment in
  let n := widened_size size in
  (new_addr <> NULL \/ size = 0 ->
   extentAlloc new_addr size alignment zero commit ar os =
     Return (NULL, zero, commit) ar os) /\
  (alloc_checked ar size alignment = true ->
   s_End ar < round_up (s_Current ar) a + n ->
   extentAlloc new_addr size alignment zero commit ar os =
     Return (NULL, zero, commit) ar os) /\
  (alloc_checked ar size alignment = true ->
   snd (mmap os (candidate ar size alignment) n RW ANON_PRIVATE_FIXED)
     = MAP_FAILED ->
   exists os',
     extentAlloc new_addr size alignment zero commit ar os =
       Return (NULL, zero, commit) ar os').
Proof.
  intros Hfree Hcur Hsize Halign a n.
  rewrite extentAlloc_eq, Hfree. unfold alloc_unfolded.
  destruct (negb (new_addr =? NULL) || (size =? 0)) eqn:Hreject.
  { repeat split; intros; eauto. }
  apply orb_false_elim in Hreject as [Hna Hsz].
  apply negb_false_iff, Z.eqb_eq in Hna. apply Z.eqb_neq in Hsz.
  split; [intros [H|H]; contradiction|].
  split.
  - intros Hchk Hover. rewrite Hchk.
    unfold alloc_checked in Hchk.
    apply andb_prop in Hchk as [Hchk _].
    apply andb_prop in Hchk as [Hone Hwiden].
    destruct (widened_request size alignment Halign Hone Hwiden)
      as (Hpow & _ & _).
    rewrite exhausted_unavailable; try assumption; [reflexivity|].
    unfold widened_size. destruct CHERI_PURE_CAPABILITY;
      [apply WordFacts.wrap_range | exact Hsize].
  - intros Hchk Hfail. rewrite Hchk. fold n. rewrite Hfail.
    destruct (_ && _); [|eauto].
    rewrite Z.eqb_refl. eauto.
Qed.

(** C9. When [extentAlloc] returns null, [*zero] and [*commit] hold the
    values the caller passed in: they are written on the success path
    only. *)
Theorem extentAlloc_null_keeps_out_params
    new_addr size alignment zero commit ar os r z c ar' os' :
  honours_MAP_FIXED ->
  0 <= s_Start ar ->
  extentAlloc new_addr size alignment zero commit ar os = Return (r, z, c) ar' os' ->
  r = NULL ->
  z = zero /\ c = commit.
Proof.
  intros Hfixed Hbase Hrun Hnull.
  apply extentAlloc_cases in Hrun.
  destruct Hrun as [(_ & Hz & Hc & _) | Hok]; [now split | exfalso].
  cbv zeta in Hok.
  destruct Hok as (_ & Hchk & _ & Hge & Hr & _ & Hmap & _).
  rewrite Hr in Hmap. apply (mapped_at_candidate _ _ _ Hfixed) in Hmap.
  rewrite Hmap in Hr. clear Hmap.
  unfold alloc_checked, range_checked, statics_checked in Hchk.
  repeat (apply andb_prop in Hchk as [Hchk ?]).
  simpl in *. unfold NULL in *.
  destruct (Z.eqb_spec (s_Start ar) 0); [discriminate|]. lia.
Qed.

End AllocClaims.

Lemma plain_honours_MAP_FIXED : honours_MAP_FIXED (P := Demo.plain).
Proof. intros os addr len prot flags _. right. reflexivity. Qed.

Lemma refusing_honours_MAP_FIXED : honours_MAP_FIXED (P := Demo.refusing).
Proof. intros os addr len prot flags _. left. reflexivity. Qed.

Lemma extentAlloc_success_witness :
  extentAlloc (P := Demo.plain) NULL 4096 8192 false false
              Demo.idle Demo.quiet =
    Return (P := Demo.plain) (Demo.base + 8192, true, true)
      (with_Current (Demo.base + 8192 + 4096) Demo.idle)
      [(Demo.base + 8192, 4096, RW, ANON_PRIVATE_FIXED)] /\
  Demo.base + 8192 = builtin_align_up (s_Current Demo.idle) 8192 /\
  (Demo.base + 8192) mod 8192 = 0.
Proof.
  assert (Hrun :
    extentAlloc (P := Demo.plain) NULL 4096 8192 false false
                Demo.idle Demo.quiet =
      Return (P := Demo.plain) (Demo.base + 8192, true, true)
        (with_Current (Demo.base + 8192 + 4096) Demo.idle)
        [(Demo.base + 8192, 4096, RW, ANON_PRIVATE_FIXED)])
    by reflexivity.
  split; [exact Hrun|].
  pose proof (extentAlloc_success (P := Demo.plain)
                NULL 4096 8192 false false Demo.idle Demo.quiet
                (Demo.base + 8192) true true _ _
                plain_honours_MAP_FIXED
                (in_range_const (s_Current Demo.idle) eq_refl)
                (in_range_const 4096 eq_refl)
                (in_range_const 8192 eq_refl)
                Hrun ltac:(discriminate)) as H.
  cbv zeta in H.
  destruct H as (_ & Haddr & (_ & Hmod & _) & _).
  split; [exact Haddr | exact Hmod].
Defined.

Lemma extentAlloc_declines_witness :
  exists os',
    extentAlloc (P := Demo.refusing) NULL 4096 8192 false false
                Demo.idle Demo.quiet =
      Return (P := Demo.refusing) (NULL, false, false) Demo.idle os'.
Proof.
  apply (extentAlloc_declines (P := Demo.refusing) NULL 4096 8192 false false
           Demo.idle Demo.quiet eq_refl
           (in_range_const (s_Current Demo.idle) eq_refl)
           (in_range_const 4096 eq_refl)
           (in_range_const 8192 eq_refl)).
  - reflexivity.
  - reflexivity.
Defined.

Lemma extentAlloc_null_keeps_out_params_witness :
  extentAlloc (P := Demo.plain) 4096 4096 4096 false true
              Demo.idle Demo.quiet =
    Return (P := Demo.plain) (NULL, false, true) Demo.idle Demo.quiet /\
  (false = false /\ true = true).
Proof.
  split; [reflexivity|].
  apply (extentAlloc_null_keeps_out_params (P := Demo.plain)
           4096 4096 4096 false true Demo.idle Demo.quiet
           NULL false true Demo.idle Demo.quiet
           plain_honours_MAP_FIXED).
  - discriminate.
  - reflexivity.
  - reflexivity.
Defined.

(** ** What the destroy and purge hooks compute *)

Section ReleaseFacts.

Context {P : Platform}.

Lemma extentDestroy_eq addr size committed ar os :
  extentDestroy addr size committed ar os =
  if s_Mutex ar then Blocked
  else if allocated_checked ar addr size then
    if snd (mmap os addr size PROT_NONE GUARD_FIXED) =? addr
    then Return tt ar (fst (mmap os addr size PROT_NONE GUARD_FIXED))
    else Crash
  else Crash.
Proof.
  unfold extentDestroy, MutexLocker, allocated_checked, allocated_test.
  destruct (s_Mutex ar) eqn:Hm; [reflexivity|].
  unfold bind at 1. rewrite isAllocatedRange_eq.
  destruct (range_checked _ _ _); [|reflexivity].
  change (window_test (with_Mutex true ar)) with (window_test ar).
  change (s_Current (with_Mutex true ar)) with (s_Current ar).
  simpl. unfold bind at 1, ASSERT at 1.
  destruct (_ && _); [|reflexivity].
  unfold bind, sys_mmap, ASSERT. fold GUARD_FIXED.
  destruct (mmap os _ _ _ _) as [os' r]. simpl.
  destruct (r =? addr); [|reflexivity].
  now rewrite unlock_lock.
Qed.

Lemma extentPurgeCommon_eq addr size offset length ar os :
  s_Mutex ar = false ->
  MutexLocker (extentPurgeCommon addr size offset length) ar os =
  if purge_checked ar addr size offset length then
    let start := Word.add addr offset in
    if snd (mmap os start length RW ANON_PRIVATE_FIXED) =? start
    then Return false ar (fst (mmap os start length RW ANON_PRIVATE_FIXED))
    else Crash
  else Crash.
Proof.
  intros Hm.
  unfold extentPurgeCommon, MutexLocker, purge_checked, allocated_checked,
         allocated_test.
  rewrite Hm.
  unfold bind at 1, tryLock at 1. simpl.
  unfold bind at 1, ASSERT at 1. simpl.
  unfold bind at 1, ASSERT at 1.
  destruct (offset <=? size); simpl; [|reflexivity].
  unfold bind at 1, ASSERT at 1.
  destruct (_ <=? size); simpl; [|reflexivity].
  unfold bind at 1. rewrite isAllocatedRange_eq.
  destruct (range_checked _ addr size); [|reflexivity].
  change (window_test (with_Mutex true ar)) with (window_test ar).
  change (s_Current (with_Mutex true ar)) with (s_Current ar).
  simpl. unfold bind at 1, ASSERT at 1.
  destruct (window_test ar addr size && _); simpl; [|reflexivity].
  unfold bind at 1. rewrite isAllocatedRange_eq.
  destruct (range_checked _ _ length); [|reflexivity].
  change (window_test (with_Mutex true ar)) with (window_test ar).
  change (s_Current (with_Mutex true ar)) with (s_Current ar).
  simpl. unfold bind at 1, ASSERT at 1.
  destruct (window_test ar _ length && _); simpl; [|reflexivity].
  unfold bind, sys_mmap, ASSERT, ret.
  change [PROT_READ; PROT_WRITE] with RW.
  change [MAP_ANON; MAP_PRIVATE; MAP_FIXED] with ANON_PRIVATE_FIXED.
  destruct (mmap os _ _ _ _) as [os' r]. simpl.
  destruct (r =? _); [|reflexivity].
  now rewrite unlock_lock.
Qed.

Lemma allocated_test_spec ar addr size :
  Word.in_range addr -> Word.in_range size ->
  allocated_test ar addr size = true <-> in_allocated ar addr size.
Proof.
  intros Ha Hs. unfold allocated_test, in_allocated.
  rewrite andb_true_iff, window_test_spec by assumption.
  split; intros [Hw H]; (split; [exact Hw|]);
    destruct Hw as (Hfit & _); rewrite add_exact in * by assumption; lia.
Qed.

(** Neither hook touches the statics. *)
Lemma extentDestroy_keeps_statics addr size committed ar os u ar' os' :
  extentDestroy addr size committed ar os = Return u ar' os' -> ar' = ar.
Proof.
  rewrite extentDestroy_eq.
  destruct (s_Mutex ar); [discriminate|].
  destruct (allocated_checked ar addr size); [|discriminate].
  destruct (_ =? addr); [|discriminate].
  intros H. now injection H as <- <-.
Qed.

Lemma purge_keeps_statics addr size offset length ar os status ar' os' :
  MutexLocker (extentPurgeCommon addr size offset length) ar os =
    Return status ar' os' ->
  ar' = ar.
Proof.
  destruct (s_Mutex ar) eqn:Hm.
  { unfold MutexLocker. rewrite Hm. discriminate. }
  rewrite extentPurgeCommon_eq by exact Hm.
  destruct (purge_checked _ _ _ _ _); [|discriminate].
  cbv zeta. destruct (_ =? _); [|discriminate].
  intros H. now injection H as <- <- <-.
Qed.

(** A part of an allocated range is allocated. *)
Lemma in_allocated_part ar addr size offset length :
  0 <= offset -> 0 <= length -> offset + length <= size ->
  in_allocated ar addr size -> in_allocated ar (addr + offset) length.
Proof. unfold in_allocated, in_window. lia. Qed.

End ReleaseFacts.

(** ** The destroy and purge hooks: the claims *)

Section ReleaseClaims.

Context {P : Platform}.

(** C6. [extentPurgeLazy] and [extentPurgeForced] are the same
    operation: on every input and state they have the same outcome.
    Whenever they return, the status is the one that tells jemalloc the
    purge succeeded, the statics are as before and the system has
    replaced the mapping of [[addr + offset, addr + offset + length)].
    On an allocated range with [offset + length <= size] they do return,
    provided the system grants the mapping (a refusal stops the process
    at an assertion). *)
Theorem purge_lazy_is_forced addr size offset length ar os :
  let start := addr + offset in
  extentPurgeLazy addr size offset length ar os =
    extentPurgeForced addr size offset length ar os /\
  (forall status ar' os',
      extentPurgeLazy addr size offset length ar os = Return status ar' os' ->
      purge_succeeded status /\ ar' = ar /\
      os' = fst (mmap os (Word.add addr offset) length RW ANON_PRIVATE_FIXED)) /\
  (s_Mutex ar = false ->
   Word.in_range addr -> Word.in_range size ->
   Word.in_range offset -> Word.in_range length ->
   offset + length <= size ->
   in_allocated ar addr size ->
   range_checked (with_Mutex true ar) addr size = true ->
   range_checked (with_Mutex true ar) start length = true ->
   snd (mmap os start length RW ANON_PRIVATE_FIXED) = start ->
   extentPurgeLazy addr size offset length ar os =
     Return false ar (fst (mmap os start length RW ANON_PRIVATE_FIXED)) /\
   extentPurgeForced addr size offset length ar os =
     Return false ar (fst (mmap os start length RW ANON_PRIVATE_FIXED))).
Proof.
  intros start. split; [reflexivity|]. split.
  - intros status ar' os'. unfold extentPurgeLazy.
    destruct (s_Mutex ar) eqn:Hm.
    { unfold MutexLocker. rewrite Hm. discriminate. }
    rewrite extentPurgeCommon_eq by exact Hm.
    destruct (purge_checked _ _ _ _ _); [|discriminate].
    cbv zeta. destruct (_ =? _); [|discriminate].
    intros H. injection H as <- <- <-. now repeat split.
  - intros Hm Haddr Hsize Hoff Hlen Hsum Halloc Hchk Hchk' Hmap.
    assert (Hstart : Word.add addr offset = start).
    { apply add_exact; try assumption.
      unfold in_allocated, in_window, Word.in_range in *. lia. }
    assert (Hrun :
      MutexLocker (extentPurgeCommon addr size offset length) ar os =
      Return false ar (fst (mmap os start length RW ANON_PRIVATE_FIXED))).
    { rewrite extentPurgeCommon_eq by exact Hm.
      assert (Hpc : purge_checked ar addr size offset length = true).
      { unfold purge_checked, allocated_checked.
        rewrite Hstart, Hchk, Hchk'. simpl.
        assert (Hin : Word.in_range start).
        { unfold start, in_allocated, in_window, Word.in_range in *. lia. }
        rewrite (proj2 (allocated_test_spec ar addr size Haddr Hsize) Halloc).
        rewrite (proj2 (allocated_test_spec ar start length Hin Hlen)).
        2: { apply in_allocated_part with size; try assumption;
             unfold Word.in_range in *; lia. }
        rewrite add_exact by
          (try assumption; unfold Word.in_range in *; lia).
        rewrite !andb_true_r, andb_true_iff. unfold Word.in_range in *. lia. }
      rewrite Hpc. cbv zeta. rewrite Hstart, Hmap, Z.eqb_refl. reflexivity. }
    split; exact Hrun.
Qed.

(** C8. [extentDestroy] leaves the cursor and the bounds of the window
    as they were, like every other static field, whenever it returns;
    and it does return on a range inside the allocated region, provided
    the system grants the guard mapping. *)
Theorem extentDestroy_keeps_window addr size committed ar os :
  (forall ar' os',
      extentDestroy addr size committed ar os = Return tt ar' os' ->
      s_Current ar' = s_Current ar /\
      s_Start ar' = s_Start ar /\ s_End ar' = s_End ar /\ ar' = ar) /\
  (s_Mutex ar = false ->
   Word.in_range addr -> Word.in_range size ->
   in_allocated ar addr size ->
   range_checked (with_Mutex true ar) addr size = true ->
   snd (mmap os addr size PROT_NONE GUARD_FIXED) = addr ->
   extentDestroy addr size committed ar os =
     Return tt ar (fst (mmap os addr size PROT_NONE GUARD_FIXED))).
Proof.
  rewrite extentDestroy_eq. split.
  - intros ar' os'. destruct (s_Mutex ar); [discriminate|].
    destruct (allocated_checked ar addr size); [|discriminate].
    destruct (_ =? addr); [|discriminate].
    intros H. injection H as <- <-. now repeat split.
  - intros Hm Haddr Hsize Halloc Hchk Hmap. rewrite Hm.
    unfold allocated_checked. rewrite Hchk.
    rewrite (proj2 (allocated_test_spec ar addr size Haddr Hsize) Halloc).
    simpl. now rewrite Hmap, Z.eqb_refl.
Qed.

End ReleaseClaims.

Lemma purge_lazy_is_forced_witness :
  extentPurgeLazy (P := Demo.plain) Demo.base 4096 1024 2048
                  Demo.idle Demo.quiet =
    Return (P := Demo.plain) false Demo.idle
           [(Demo.base + 1024, 2048, RW, ANON_PRIVATE_FIXED)] /\
  extentPurgeForced (P := Demo.plain) Demo.base 4096 1024 2048
                    Demo.idle Demo.quiet =
    Return (P := Demo.plain) false Demo.idle
           [(Demo.base + 1024, 2048, RW, ANON_PRIVATE_FIXED)].
Proof.
  apply (purge_lazy_is_forced (P := Demo.plain) Demo.base 4096 1024 2048
           Demo.idle Demo.quiet).
  - reflexivity.
  - apply in_range_const. reflexivity.
  - apply in_range_const. reflexivity.
  - apply in_range_const. reflexivity.
  - apply in_range_const. reflexivity.
  - vm_compute. discriminate.
  - unfold in_allocated, in_window. vm_compute.
    repeat split; discriminate.
  - reflexivity.
  - reflexivity.
  - reflexivity.
Defined.

Lemma extentDestroy_keeps_window_witness :
  extentDestroy (P := Demo.plain) Demo.base 4096 true Demo.idle Demo.quiet =
    Return (P := Demo.plain) tt Demo.idle
           [(Demo.base, 4096, PROT_NONE, GUARD_FIXED)].
Proof.
  apply (extentDestroy_keeps_window (P := Demo.plain) Demo.base 4096 true
           Demo.idle Demo.quiet).
  - reflexivity.
  - apply in_range_const. reflexivity.
  - apply in_range_const. reflexivity.
  - unfold in_allocated, in_window. vm_compute.
    repeat split; discriminate.
  - reflexivity.
  - reflexivity.
Defined.

(** ** Sequences of hook invocations *)

Section Sequences.

Context {P : Platform}.

(** What one call does to the window. *)
Lemma invoke_window c ar os ar' os' :
  invoke c ar os = Some (ar', os') ->
  s_Start ar' = s_Start ar /\ s_End ar' = s_End ar /\
  s_Current ar <= s_Current ar' /\
  (cursor_in_window ar -> cursor_in_window ar') /\
  (is_alloc c = false -> s_Current ar' = s_Current ar).
Proof.
  destruct c as [new_addr size alignment zero commit | addr size committed
                | addr size offset length | addr size offset length]; simpl.
  - destruct (extentAlloc _ _ _ _ _ ar os) as [[[r z] c] ar1 os1| |] eqn:Hrun;
      try discriminate.
    intros H. injection H as <- <-.
    apply extentAlloc_cases in Hrun.
    destruct Hrun as [(_ & _ & _ & ->) | Hok].
    { unfold cursor_in_window. repeat split; try lia; auto. }
    cbv zeta in Hok.
    destruct Hok as (_ & _ & Hwin & Hge & _ & _ & _ & _ & _ & _ & ->).
    unfold window_test in Hwin. unfold cursor_in_window. simpl.
    rewrite !andb_true_iff, negb_true_iff in Hwin.
    repeat split; try lia; discriminate.
  - destruct (extentDestroy _ _ _ ar os) as [[] ar1 os1| |] eqn:Hrun;
      try discriminate.
    intros H. injection H as <- <-.
    apply extentDestroy_keeps_statics in Hrun.
    subst ar1. unfold cursor_in_window. repeat split; try lia; auto.
  - destruct (extentPurgeLazy _ _ _ _ ar os) as [st ar1 os1| |] eqn:Hrun;
      try discriminate.
    intros H. injection H as <- <-.
    apply purge_keeps_statics in Hrun.
    subst ar1. unfold cursor_in_window. repeat split; try lia; auto.
  - destruct (extentPurgeForced _ _ _ _ ar os) as [st ar1 os1| |] eqn:Hrun;
      try discriminate.
    intros H. injection H as <- <-.
    apply purge_keeps_statics in Hrun.
    subst ar1. unfold cursor_in_window. repeat split; try lia; auto.
Qed.

(** Along a sequence the window stays put and the cursor stays inside
    it, never below where it started. *)
Lemma states_after_window cs :
  forall ar os,
    cursor_in_window ar ->
    Forall (fun st =>
              s_Start (fst st) = s_Start ar /\ s_End (fst st) = s_End ar /\
              cursor_in_window (fst st) /\ s_Current ar <= cursor_of st)
           (states_after cs ar os) /\
    StronglySorted Z.le (map cursor_of (states_after cs ar os)).
Proof.
  induction cs as [|c cs IH]; intros ar os Hin; simpl.
  { split; constructor. }
  destruct (invoke c ar os) as [[ar1 os1]|] eqn:Hc; [|split; constructor].
  apply invoke_window in Hc as (Hs & He & Hle & Hkeep & _).
  destruct (IH ar1 os1 (Hkeep Hin)) as [Hall Hsorted].
  split.
  - constructor; [unfold cursor_of; simpl; auto|].
    eapply Forall_impl; [|exact Hall].
    intros st (Hs' & He' & Hin' & Hle').
    split; [congruence|]. split; [congruence|]. split; [exact Hin' | lia].
  - simpl. constructor; [exact Hsorted|].
    apply Forall_map. eapply Forall_impl; [|exact Hall].
    intros st (_ & _ & _ & Hle'). exact Hle'.
Qed.

(** C2. Along every sequence of hook invocations that starts with the
    cursor inside the window, the cursor never decreases, and after each
    invocation it lies in [[s_Start, s_End]] of the window, whose bounds
    do not move.  A hook other than [extentAlloc] leaves the cursor where
    it was. *)
Theorem cursor_monotone cs ar os :
  cursor_in_window ar ->
  StronglySorted Z.le (s_Current ar :: map cursor_of (states_after cs ar os)) /\
  Forall (fun st => s_Start ar <= cursor_of st <= s_End ar /\
                    s_Start (fst st) = s_Start ar /\
                    s_End (fst st) = s_End ar)
         (states_after cs ar os) /\
  (forall c ar' os',
      is_alloc c = false -> invoke c ar os = Some (ar', os') ->
      s_Current ar' = s_Current ar).
Proof.
  intros Hin.
  destruct (states_after_window cs ar os Hin) as [Hall Hsorted].
  split; [|split].
  - constructor; [exact Hsorted|].
    apply Forall_map. eapply Forall_impl; [|exact Hall].
    intros st (_ & _ & _ & Hle). exact Hle.
  - eapply Forall_impl; [|exact Hall].
    intros st (Hs & He & Hin' & _). unfold cursor_in_window, cursor_of in *.
    repeat split; try assumption; lia.
  - intros c ar' os' Hc Hrun.
    apply invoke_window in Hrun as (_ & _ & _ & _ & Hsame). auto.
Qed.

End Sequences.

Example cursors_after_calls :
  map cursor_of (states_after (P := Demo.plain) Scenario.calls Scenario.start Demo.quiet) =
  [Demo.base + 4096; Demo.base + 12288; Demo.base + 12288;
   Demo.base + 12288; Demo.base + 12288].
Proof. reflexivity. Qed.

Lemma cursor_monotone_witness :
  StronglySorted Z.le
    (s_Current Scenario.start ::
     map cursor_of
         (states_after (P := Demo.plain) Scenario.calls Scenario.start
                       Demo.quiet)).
Proof.
  apply (cursor_monotone (P := Demo.plain) Scenario.calls Scenario.start
                         Demo.quiet).
  unfold cursor_in_window. vm_compute. split; discriminate.
Defined.

(** ** Allocations that succeed *)

Section AllocSucceeds.

Context {P : Platform}.

Lemma plain_exact ar size alignment :
  CHERI_PURE_CAPABILITY = false -> purecap_exact ar size alignment.
Proof. intros H H'. congruence. Qed.

(** The mathematical rounding of a pointer that lies at most one
    alignment below a multiple is that multiple. *)
Lemma round_up_between p a m :
  0 < a -> m mod a = 0 -> m - a < p <= m -> round_up p a = m.
Proof.
  intros Ha Hm Hp. apply Z.mod_divide in Hm; [|lia]. destruct Hm as [q ->].
  unfold round_up. rewrite (Z.mul_comm q a). f_equal.
  symmetry. apply Z.div_unique with (r := p + a - 1 - a * q); lia.
Qed.

(** If the rounded pointer is still a word, the builtin computed it. *)
Lemma builtin_align_up_fits p a :
  Word.in_range p -> is_pow2 a ->
  round_up p a < Word.modulus -> builtin_align_up p a = round_up p a.
Proof.
  intros Hp Ha Hfit. apply builtin_align_up_exact; try assumption.
  destruct (Z_lt_le_dec (p + a - 1) Word.modulus) as [|Hover]; [assumption|].
  exfalso. pose proof (is_pow2_range a Ha) as Hr.
  destruct (pow2_divides_modulus a Ha) as [q Hq].
  assert (q <= (p + a - 1) / a).
  { apply Z.div_le_lower_bound; lia. }
  unfold round_up in Hfit. nia.
Qed.

(** A request that fits behind the cursor is granted at the rounded
    cursor, when the system grants the mapping. *)
Lemma extentAlloc_maps size alignment zero commit ar os :
  honours_MAP_FIXED ->
  s_Mutex ar = false ->
  Word.in_range (s_Current ar) -> Word.in_range size -> size <> 0 ->
  is_pow2 alignment ->
  s_Start ar <> NULL -> cursor_in_window ar -> s_End ar < Word.modulus ->
  purecap_exact ar size alignment ->
  let start := round_up (s_Current ar) alignment in
  start + size <= s_End ar ->
  snd (mmap os start size RW ANON_PRIVATE_FIXED) <> MAP_FAILED ->
  extentAlloc NULL size alignment zero commit ar os =
    Return (start, true, true) (with_Current (start + size) ar)
           (fst (mmap os start size RW ANON_PRIVATE_FIXED)).
Proof.
  intros Hfixed Hm Hcur Hsize Hnz Hpow Hbase Hin Hend Hexact start Hfit Hmap.
  pose proof (is_pow2_range _ Hpow) as Hapos.
  destruct (round_up_spec (s_Current ar) alignment Hpow) as [Hbounds _].
  fold start in Hbounds.
  assert (Hw : widened_size size = size /\
               widened_alignment size alignment = alignment /\
               widening_checked size alignment = true).
  { destruct CHERI_PURE_CAPABILITY eqn:Hc.
    - destruct (Hexact Hc) as (? & ? & ? & _). auto.
    - unfold widened_size, widened_alignment, widening_checked.
      rewrite Hc. auto. }
  destruct Hw as (Hws & Hwa & Hwc).
  assert (Hcand : candidate ar size alignment = start).
  { unfold candidate. rewrite Hwa.
    apply builtin_align_up_fits; try assumption. fold start.
    unfold Word.in_range in *. lia. }
  assert (Hstart : Word.in_range start).
  { unfold Word.in_range in *. unfold cursor_in_window in Hin. lia. }
  rewrite extentAlloc_eq, Hm. unfold alloc_unfolded.
  replace (negb (NULL =? NULL) || (size =? 0)) with false
    by (symmetry; apply orb_false_intro; [reflexivity | now apply Z.eqb_neq]).
  assert (Hchk : alloc_checked ar size alignment = true).
  { unfold alloc_checked, range_checked, statics_checked.
    rewrite (is_pow2_hasOneBitSet _ Hpow), Hwc, Hcand, Hws. simpl.
    unfold cursor_in_window in Hin.
    assert (Htags : tags_checked (with_Mutex true ar) start size = true).
    { change (tags_checked (with_Mutex true ar) start size)
        with (tags_checked ar start size).
      destruct CHERI_PURE_CAPABILITY eqn:Hc.
      - destruct (Hexact Hc) as (_ & _ & _ & Ht & _). now rewrite Hcand in Ht.
      - unfold tags_checked. now rewrite Hc. }
    rewrite Htags, !andb_true_iff, negb_true_iff, Z.eqb_neq.
    unfold NULL in *. lia. }
  rewrite Hchk, Hcand, Hws. cbv zeta.
  assert (Hwin : window_test ar start size = true).
  { apply window_test_spec; try assumption.
    unfold in_window, cursor_in_window, Word.in_range in *. lia. }
  rewrite Hwin. simpl.
  replace (start >=? s_Current ar) with true by (symmetry; lia).
  rewrite (mapped_at_candidate _ _ _ Hfixed Hmap).
  assert (Hnf : (start =? MAP_FAILED) = false).
  { apply Z.eqb_neq. unfold MAP_FAILED, Word.in_range in *. lia. }
  rewrite Hnf.
  assert (Hmc : mapping_checked start start size = true).
  { unfold mapping_checked. destruct CHERI_PURE_CAPABILITY eqn:Hc; simpl.
    - destruct (Hexact Hc) as (_ & _ & _ & _ & Hlen).
      rewrite Hcand in Hlen. now rewrite Hlen, !Z.eqb_refl.
    - reflexivity. }
  rewrite Hmc, add_exact; try assumption; try reflexivity.
  unfold Word.in_range in *. lia.
Qed.

(** A granted request never lies below the cursor. *)
Lemma extentAlloc_above_cursor
    new_addr size alignment zero commit ar os r z c ar' os' :
  honours_MAP_FIXED ->
  extentAlloc new_addr size alignment zero commit ar os = Return (r, z, c) ar' os' ->
  r <> NULL ->
  s_Current ar <= r.
Proof.
  intros Hfixed Hrun Hnz. apply extentAlloc_cases in Hrun.
  destruct Hrun as [(Hnull & _) | Hok]; [contradiction|].
  cbv zeta in Hok. destruct Hok as (_ & _ & _ & Hge & Hr & _ & Hmap & _).
  rewrite Hr in Hmap. apply (mapped_at_candidate _ _ _ Hfixed) in Hmap.
  rewrite Hmap in Hr. lia.
Qed.

End AllocSucceeds.

(** ** The alignment scenario *)

Section ScenarioClaim.

Context {P : Platform}.

Lemma reserved_End B len :
  0 <= B -> 0 <= len -> B + len < Word.modulus ->
  s_End (reserved B len) = B + len.
Proof.
  intros. simpl. unfold Word.add. apply WordFacts.wrap_small.
  unfold Word.in_range. lia.
Qed.

Lemma multiple_of_window B k :
  0 <= k <= 20 -> B mod 2 ^ 20 = 0 -> B mod 2 ^ k = 0.
Proof.
  intros Hk HB. apply Z.mod_divide in HB; [|lia]. destruct HB as [q ->].
  replace (2 ^ 20) with (2 ^ (20 - k) * 2 ^ k)
    by (rewrite <- Z.pow_add_r by lia; f_equal; lia).
  rewrite Z.mul_assoc. apply Z.mod_mul.
  apply Z.pow_nonzero; lia.
Qed.

(** C7. A window of [1 << 20] bytes is reserved at [B] (aligned to its
    size, as the reservation asks) and the cursor starts at [B].  An
    allocation of 4096 bytes aligned to 4096 returns [B] and moves the
    cursor to [B + 4096]; the next, of 4096 bytes aligned to 8192, returns
    [B + 8192] and moves the cursor to [B + 12288].  Whatever hooks are
    invoked afterwards, every later allocation that succeeds lies at or
    above [B + 12288], so [[B + 4096, B + 8192)] is never handed out. *)
Theorem scenario_alignment_skip B zero commit zero' commit' os :
  honours_MAP_FIXED ->
  0 < B -> B mod 2 ^ 20 = 0 -> B + 2 ^ 20 < Word.modulus ->
  let ar0 := reserved B (2 ^ 20) in
  let ar1 := with_Current (B + 4096) ar0 in
  let ar2 := with_Current (B + 12288) ar0 in
  let os1 := fst (mmap os B 4096 RW ANON_PRIVATE_FIXED) in
  let os2 := fst (mmap os1 (B + 8192) 4096 RW ANON_PRIVATE_FIXED) in
  purecap_exact ar0 4096 4096 -> purecap_exact ar1 4096 8192 ->
  snd (mmap os B 4096 RW ANON_PRIVATE_FIXED) <> MAP_FAILED ->
  snd (mmap os1 (B + 8192) 4096 RW ANON_PRIVATE_FIXED) <> MAP_FAILED ->
  extentAlloc NULL 4096 4096 zero commit ar0 os =
    Return (B, true, true) ar1 os1 /\
  extentAlloc NULL 4096 8192 zero' commit' ar1 os1 =
    Return (B + 8192, true, true) ar2 os2 /\
  (forall cs st new_addr size alignment z c r z' c' ar' os',
      st = (ar2, os2) \/ In st (states_after cs ar2 os2) ->
      extentAlloc new_addr size alignment z c (fst st) (snd st) =
        Return (r, z', c') ar' os' ->
      r <> NULL ->
      B + 12288 <= r).
Proof.
  intros Hfixed Hpos Hal Hend ar0 ar1 ar2 os1 os2 Hex0 Hex1 Hmap0 Hmap1.
  assert (HE : s_End ar0 = B + 2 ^ 20) by (apply reserved_End; lia).
  assert (H12 : B mod 4096 = 0) by (apply (multiple_of_window B 12); [lia|assumption]).
  assert (H13 : B mod 8192 = 0) by (apply (multiple_of_window B 13); [lia|assumption]).
  assert (Hsz : Word.in_range 4096) by (apply in_range_const; reflexivity).
  assert (Hr0 : round_up (s_Current ar0) 4096 = B).
  { apply round_up_between; simpl; lia. }
  assert (Hr1 : round_up (s_Current ar1) 8192 = B + 8192).
  { apply round_up_between; simpl; try lia.
    rewrite <- (Z.mul_1_l 8192) at 1. rewrite Z.mod_add by lia. exact H13. }
  split; [|split].
  - pose proof (extentAlloc_maps 4096 4096 zero commit ar0 os Hfixed) as H.
    cbv zeta in H. rewrite Hr0 in H. apply H; clear H; try assumption.
    + reflexivity.
    + simpl. unfold Word.in_range. lia.
    + discriminate.
    + exists 12. split; [unfold Word.bits; lia | reflexivity].
    + simpl. unfold NULL. lia.
    + unfold cursor_in_window. rewrite HE. simpl. lia.
    + lia.
    + lia.
  - pose proof (extentAlloc_maps 4096 8192 zero' commit' ar1 os1 Hfixed) as H.
    cbv zeta in H. rewrite Hr1 in H.
    change (s_End ar1) with (s_End ar0) in H.
    replace (B + 8192 + 4096) with (B + 12288) in H by lia.
    apply H; clear H; try assumption.
    + reflexivity.
    + simpl. unfold Word.in_range. lia.
    + discriminate.
    + exists 13. split; [unfold Word.bits; lia | reflexivity].
    + simpl. unfold NULL. lia.
    + unfold cursor_in_window. change (s_End ar1) with (s_End ar0).
      rewrite HE. simpl. lia.
    + lia.
    + lia.
  - intros cs st new_addr size alignment z c r z' c' ar' os' Hst Hrun Hnz.
    apply (extentAlloc_above_cursor _ _ _ _ _ _ _ _ _ _ _ _ Hfixed) in Hrun;
      [|exact Hnz].
    assert (Hin2 : cursor_in_window ar2).
    { unfold cursor_in_window. change (s_End ar2) with (s_End ar0).
      rewrite HE. simpl. lia. }
    destruct Hst as [-> | Hst]; [simpl in Hrun; lia|].
    destruct (states_after_window cs ar2 os2 Hin2) as [Hall _].
    rewrite Forall_forall in Hall.
    destruct (Hall st Hst) as (_ & _ & _ & Hle).
    unfold cursor_of in Hle. simpl in Hle. lia.
Qed.

End ScenarioClaim.

Lemma scenario_alignment_skip_witness :
  extentAlloc (P := Demo.plain) NULL 4096 4096 false false
              (reserved Demo.base (2 ^ 20)) Demo.quiet =
    Return (P := Demo.plain) (Demo.base, true, true)
      (with_Current (Demo.base + 4096) (reserved Demo.base (2 ^ 20)))
      [(Demo.base, 4096, RW, ANON_PRIVATE_FIXED)] /\
  extentAlloc (P := Demo.plain) NULL 4096 8192 false false
              (with_Current (Demo.base + 4096) (reserved Demo.base (2 ^ 20)))
              [(Demo.base, 4096, RW, ANON_PRIVATE_FIXED)] =
    Return (P := Demo.plain) (Demo.base + 8192, true, true)
      (with_Current (Demo.base + 12288) (reserved Demo.base (2 ^ 20)))
      [(Demo.base + 8192, 4096, RW, ANON_PRIVATE_FIXED);
       (Demo.base, 4096, RW, ANON_PRIVATE_FIXED)].
Proof.
  pose proof (scenario_alignment_skip (P := Demo.plain)
                Demo.base false false false false Demo.quiet
                plain_honours_MAP_FIXED) as H.
  cbv zeta in H.
  destruct H as (H1 & H2 & _).
  - reflexivity.
  - reflexivity.
  - reflexivity.
  - apply plain_exact. reflexivity.
  - apply plain_exact. reflexivity.
  - vm_compute. discriminate.
  - vm_compute. discriminate.
  - split; [exact H1 | exact H2].
Defined.

(** ** Runs on the concrete platforms *)

Module Runs.

(** On the coarse pure-capability build a request of 100 bytes aligned
    to 4 is widened to 112 bytes aligned to 16: the cursor moves by the
    widened size. *)
Example coarse_widens :
  widened_size (P := Demo.coarse) 100 = 112 /\
  widened_alignment (P := Demo.coarse) 100 4 = 16 /\
  extentAlloc (P := Demo.coarse) NULL 100 4 false false
              Demo.idle Demo.quiet =
    Return (P := Demo.coarse) (Demo.base + 4096, true, true)
      (with_Current (Demo.base + 4096 + 112) Demo.idle)
      [(Demo.base + 4096, 112, RW, ANON_PRIVATE_FIXED)].
Proof. repeat split. Qed.

(** The exact pure-capability build behaves like the plain one. *)
Example purecap_allocates :
  extentAlloc (P := Demo.purecap) NULL 4096 8192 false false
              Demo.idle Demo.quiet =
    Return (P := Demo.purecap) (Demo.base + 8192, true, true)
      (with_Current (Demo.base + 12288) Demo.idle)
      [(Demo.base + 8192, 4096, RW, ANON_PRIVATE_FIXED)].
Proof. reflexivity. Qed.

(** A request that needs the whole window after a page is gone is
    declined, and so is one whose alignment skips past the end. *)
Example window_exhausted :
  extentAlloc (P := Demo.plain) NULL (2 ^ 20) 4096 false false
              Demo.idle Demo.quiet =
    Return (P := Demo.plain) (NULL, false, false) Demo.idle Demo.quiet /\
  extentAlloc (P := Demo.plain) NULL 4096 (2 ^ 20) false false
              Demo.idle Demo.quiet =
    Return (P := Demo.plain) (NULL, false, false) Demo.idle Demo.quiet.
Proof. split; reflexivity. Qed.

(** The last page of the window can still be handed out: the end of the
    window is an admissible end of a range. *)
Example last_page :
  extentAlloc (P := Demo.plain) NULL 4096 4096 false false
              (with_Current (Demo.base + 2 ^ 20 - 4096) Demo.idle)
              Demo.quiet =
    Return (P := Demo.plain) (Demo.base + 2 ^ 20 - 4096, true, true)
      (with_Current (Demo.base + 2 ^ 20) Demo.idle)
      [(Demo.base + 2 ^ 20 - 4096, 4096, RW, ANON_PRIVATE_FIXED)].
Proof. reflexivity. Qed.

(** An alignment that is no power of two stops at the assertion; a hook
    entered while the mutex is held waits. *)
Example bad_alignment_crashes :
  extentAlloc (P := Demo.plain) NULL 4096 3 false false
              Demo.idle Demo.quiet = Crash.
Proof. reflexivity. Qed.

Example held_mutex_blocks :
  extentAlloc (P := Demo.plain) NULL 4096 4096 false false
              Demo.busy Demo.quiet = Blocked.
Proof. reflexivity. Qed.

(** The range predicates called without the mutex stop at their first
    assertion. *)
Example unlocked_predicate_crashes :
  isValidRange (P := Demo.plain) Demo.base 4096 Demo.idle Demo.quiet = Crash.
Proof. reflexivity. Qed.

(** A range whose end wraps around is outside the window. *)
Example wrapped_range_invalid :
  isValidRange (P := Demo.plain) Demo.base (Word.modulus - 1)
               Demo.busy Demo.quiet =
    Return (P := Demo.plain) false Demo.busy Demo.quiet.
Proof. reflexivity. Qed.

(** Destroying or purging what was never handed out stops at the
    assertion; so does a purge the system refuses. *)
Example destroy_unallocated_crashes :
  extentDestroy (P := Demo.plain) (Demo.base + 4096) 4096 true
                Demo.idle Demo.quiet = Crash.
Proof. reflexivity. Qed.

Example refused_purge_crashes :
  extentPurgeForced (P := Demo.refusing) Demo.base 4096 0 4096
                    Demo.idle Demo.quiet = Crash.
Proof. reflexivity. Qed.

End Runs.

(** ** One granted allocation *)

Section Granted.

Context {P : Platform}.

(** What a granted allocation looks like, in one place: the address is
    the rounded cursor, the mapped range lies in the window, and the
    cursor ends right behind it. *)
Lemma extentAlloc_granted
    new_addr size alignment zero commit ar os r z c ar' os' :
  honours_MAP_FIXED ->
  Word.in_range (s_Current ar) ->
  Word.in_range size -> Word.in_range alignment ->
  extentAlloc new_addr size alignment zero commit ar os = Return (r, z, c) ar' os' ->
  r <> NULL ->
  is_pow2 (widened_alignment size alignment) /\
  r = round_up (s_Current ar) (widened_alignment size alignment) /\
  0 < size <= widened_size size /\
  Word.in_range r /\ Word.in_range (widened_size size) /\
  in_window ar r (widened_size size) /\
  s_Start ar <= s_Current ar <= r /\
  ar' = with_Current (r + widened_size size) ar.
Proof.
  intros Hfixed Hcur Hsize Halign Hrun Hnz.
  apply extentAlloc_cases in Hrun.
  destruct Hrun as [(Hnull & _) | Hok]; [contradiction|].
  cbv zeta in Hok.
  destruct Hok as (Hsz & Hchk & Hwin & Hge & Hr & _ & Hmap & _ & _ & _ & ->).
  rewrite Hr in Hmap. apply (mapped_at_candidate _ _ _ Hfixed) in Hmap.
  rewrite Hmap in Hr. clear Hmap. subst r.
  unfold alloc_checked in Hchk.
  apply andb_prop in Hchk as [Hchk Hrange].
  apply andb_prop in Hchk as [Hone Hwiden].
  destruct (widened_request size alignment Halign Hone Hwiden)
    as (Hpow & _ & Hgrow).
  unfold range_checked, statics_checked in Hrange.
  repeat (apply andb_prop in Hrange as [Hrange ?]).
  simpl in *.
  unfold candidate in *.
  pose proof (builtin_align_up_range _ _ Hcur Hpow) as Hstart.
  pose proof (builtin_align_up_ge _ _ Hcur Hpow Hge) as Hround.
  assert (Hn : Word.in_range (widened_size size)).
  { unfold widened_size. destruct CHERI_PURE_CAPABILITY;
      [apply WordFacts.wrap_range | exact Hsize]. }
  apply window_test_spec in Hwin; [|assumption..].
  pose proof Hwin as (Hfit & _).
  rewrite add_exact by assumption.
  split; [exact Hpow|]. split; [exact Hround|].
  split; [unfold Word.in_range in Hsize; lia|].
  split; [exact Hstart|]. split; [exact Hn|]. split; [exact Hwin|].
  split; [lia | reflexivity].
Qed.


End Granted.

(** ** The extents of a sequence never overlap *)

Section ExtentsFacts.

Context {P : Platform}.

(** What one call adds to the extents handed out. *)
Lemma invoke_extent c ar os ar' os' :
  honours_MAP_FIXED -> call_words c -> Word.in_range (s_Current ar) ->
  invoke c ar os = Some (ar', os') ->
  Word.in_range (s_Current ar') /\
  match granted c ar os with
  | Some e =>
      s_Start ar <= s_Current ar <= fst e /\ 0 < snd e /\
      fst e + snd e = s_Current ar' /\ fst e + snd e <= s_End ar
  | None => True
  end.
Proof.
  intros Hfixed Hwords Hcur.
  destruct c as [new_addr size alignment zero commit | addr size committed
                | addr size offset length | addr size offset length]; simpl.
  - destruct Hwords as (_ & Hsize & Halign).
    destruct (extentAlloc _ _ _ _ _ ar os) as [[[r z] c] ar1 os1| |] eqn:Hrun;
      try discriminate.
    intros H. injection H as <- <-.
    split.
    + apply extentAlloc_cases in Hrun.
      destruct Hrun as [(_ & _ & _ & ->) | Hok]; [exact Hcur|].
      cbv zeta in Hok. decompose [and] Hok. subst ar1. simpl.
      apply WordFacts.wrap_range.
    + destruct (Z.eqb_spec r NULL) as [|Hnz]; [exact I|].
      destruct (extentAlloc_granted _ _ _ _ _ _ _ _ _ _ _ _
                  Hfixed Hcur Hsize Halign Hrun Hnz)
        as (_ & _ & Hpos & _ & _ & Hwin & Hle & ->).
      unfold in_window in Hwin. simpl. lia.
  - destruct (extentDestroy _ _ _ ar os) as [[] ar1 os1| |] eqn:Hrun;
      try discriminate.
    intros H. injection H as <- <-.
    apply extentDestroy_keeps_statics in Hrun. subst ar1. now split.
  - destruct (extentPurgeLazy _ _ _ _ ar os) as [st ar1 os1| |] eqn:Hrun;
      try discriminate.
    intros H. injection H as <- <-.
    apply purge_keeps_statics in Hrun. subst ar1. now split.
  - destruct (extentPurgeForced _ _ _ _ ar os) as [st ar1 os1| |] eqn:Hrun;
      try discriminate.
    intros H. injection H as <- <-.
    apply purge_keeps_statics in Hrun. subst ar1. now split.
Qed.

Lemma extents_of_ordered cs :
  forall ar os,
    honours_MAP_FIXED -> Forall call_words cs ->
    Word.in_range (s_Current ar) ->
    StronglySorted ends_before (extents_of cs ar os) /\
    Forall (fun e => 0 < snd e /\ s_Start ar <= fst e /\
                     s_Current ar <= fst e /\ fst e + snd e <= s_End ar)
           (extents_of cs ar os).
Proof.
  induction cs as [|c cs IH]; intros ar os Hfixed Hwords Hcur; simpl.
  { split; constructor. }
  inversion Hwords as [|? ? Hc Hcs]; subst.
  destruct (invoke c ar os) as [[ar1 os1]|] eqn:Hinv; [|split; constructor].
  destruct (invoke_extent c ar os ar1 os1 Hfixed Hc Hcur Hinv) as [Hcur1 Hext].
  apply invoke_window in Hinv as (Hs & He & Hle & _ & _).
  destruct (IH ar1 os1 Hfixed Hcs Hcur1) as [Hsorted Hall].
  assert (Hall' :
    Forall (fun e => 0 < snd e /\ s_Start ar <= fst e /\
                     s_Current ar <= fst e /\ fst e + snd e <= s_End ar)
           (extents_of cs ar1 os1)).
  { eapply Forall_impl; [|exact Hall].
    intros e (? & ? & ? & ?). rewrite <- Hs, <- He. repeat split; lia. }
  destruct (granted c ar os) as [e|]; [|now split].
  destruct Hext as (Hlo & Hpos & Hend & Hhi).
  split.
  - constructor; [exact Hsorted|].
    eapply Forall_impl; [|exact Hall].
    intros e' (_ & _ & Hge & _). unfold ends_before. lia.
  - constructor; [|exact Hall']. repeat split; lia.
Qed.

(** X1. Along every sequence of hook invocations the extents handed
    out by [extentAlloc] come in increasing address order, each ending
    at or before the next begins: no two of them overlap.  Each is
    non-empty, starts at or after the cursor the sequence started from
    and lies inside the window. *)
Theorem extents_never_overlap cs ar os :
  honours_MAP_FIXED -> Forall call_words cs ->
  Word.in_range (s_Current ar) ->
  StronglySorted ends_before (extents_of cs ar os) /\
  Forall (fun e => 0 < snd e /\ s_Start ar <= fst e /\
                   s_Current ar <= fst e /\ fst e + snd e <= s_End ar)
         (extents_of cs ar os).
Proof. intros. now apply extents_of_ordered. Qed.

(** X2. The bytes handed out along a sequence of hook invocations never
    exceed what lay between the cursor and the end of the window when
    the sequence started. *)
Theorem extents_within_capacity cs :
  forall ar os,
    honours_MAP_FIXED -> Forall call_words cs ->
    Word.in_range (s_Current ar) -> cursor_in_window ar ->
    0 <= total_size (extents_of cs ar os) <= s_End ar - s_Current ar.
Proof.
  induction cs as [|c cs IH]; intros ar os Hfixed Hwords Hcur Hin; simpl.
  { unfold total_size, cursor_in_window in *. simpl. lia. }
  inversion Hwords as [|? ? Hc Hcs]; subst.
  destruct (invoke c ar os) as [[ar1 os1]|] eqn:Hinv.
  2: { unfold total_size, cursor_in_window in *. simpl. lia. }
  destruct (invoke_extent c ar os ar1 os1 Hfixed Hc Hcur Hinv) as [Hcur1 Hext].
  apply invoke_window in Hinv as (Hs & He & Hle & Hkeep & _).
  specialize (IH ar1 os1 Hfixed Hcs Hcur1 (Hkeep Hin)).
  destruct (granted c ar os) as [e|].
  - destruct Hext as (Hlo & Hpos & Hend & Hhi).
    unfold total_size in *. simpl. lia.
  - lia.
Qed.

End ExtentsFacts.

Lemma scenario_call_words : Forall call_words Scenario.calls.
Proof.
  unfold Scenario.calls.
  repeat constructor; apply in_range_const; reflexivity.
Qed.

Lemma extents_never_overlap_witness :
  extents_of (P := Demo.plain) Scenario.calls Scenario.start Demo.quiet =
    [(Demo.base, 4096); (Demo.base + 8192, 4096)] /\
  StronglySorted ends_before
    (extents_of (P := Demo.plain) Scenario.calls Scenario.start Demo.quiet).
Proof.
  split; [reflexivity|].
  apply (extents_never_overlap (P := Demo.plain) Scenario.calls Scenario.start
           Demo.quiet plain_honours_MAP_FIXED scenario_call_words).
  apply in_range_const. reflexivity.
Defined.

Lemma extents_within_capacity_witness :
  0 <= total_size (extents_of (P := Demo.plain) Scenario.calls Scenario.start
                              Demo.quiet)
    <= s_End Scenario.start - s_Current Scenario.start.
Proof.
  apply (extents_within_capacity (P := Demo.plain) Scenario.calls
           Scenario.start Demo.quiet plain_honours_MAP_FIXED
           scenario_call_words).
  - apply in_range_const. reflexivity.
  - unfold cursor_in_window. vm_compute. split; discriminate.
Defined.

(** ** What stays true as the hooks run *)

Section OverTime.

Context {P : Platform}.

(** A state met later in a sequence has the same window and a cursor
    that is not lower. *)
Lemma later_state cs ar os st :
  cursor_in_window ar ->
  In st ((ar, os) :: states_after cs ar os) ->
  s_Start (fst st) = s_Start ar /\ s_End (fst st) = s_End ar /\
  s_Current ar <= s_Current (fst st) /\ cursor_in_window (fst st).
Proof.
  intros Hin [<- | Hst]; simpl.
  { split; [reflexivity|]. split; [reflexivity|]. split; [lia | exact Hin]. }
  destruct (states_after_window cs ar os Hin) as [Hall _].
  rewrite Forall_forall in Hall.
  destruct (Hall st Hst) as (Hs & He & Hin' & Hle).
  unfold cursor_of in Hle. auto.
Qed.

Lemma window_test_later ar ar' addr size :
  s_Start ar' = s_Start ar -> s_End ar' = s_End ar ->
  window_test ar' addr size = window_test ar addr size.
Proof. unfold window_test. now intros -> ->. Qed.

(** X3. An extent that [extentAlloc] handed out stays allocated: in
    the state the call leaves and in every state a later sequence of
    hook invocations reaches, the range of the (widened) size and the
    range of the requested size lie in the allocated region, the range
    is not available, and inside a hook [isAllocatedRange] answers
    [true] and [isAvailableRange] answers [false] for it whenever they
    return. *)
Theorem extent_stays_allocated
    new_addr size alignment zero commit ar os r z c ar' os' cs st :
  honours_MAP_FIXED ->
  Word.in_range (s_Current ar) ->
  Word.in_range size -> Word.in_range alignment ->
  extentAlloc new_addr size alignment zero commit ar os = Return (r, z, c) ar' os' ->
  r <> NULL ->
  In st ((ar', os') :: states_after cs ar' os') ->
  in_allocated (fst st) r (widened_size size) /\
  in_allocated (fst st) r size /\
  ~ in_available (fst st) r (widened_size size) /\
  (forall b ar2 os2,
      isAllocatedRange r (widened_size size)
                       (with_Mutex true (fst st)) (snd st) = Return b ar2 os2 ->
      b = true) /\
  (forall b ar2 os2,
      isAvailableRange r (widened_size size)
                       (with_Mutex true (fst st)) (snd st) = Return b ar2 os2 ->
      b = false).
Proof.
  intros Hfixed Hcur Hsize Halign Hrun Hnz Hst.
  destruct (extentAlloc_granted _ _ _ _ _ _ _ _ _ _ _ _
              Hfixed Hcur Hsize Halign Hrun Hnz)
    as (_ & _ & Hpos & Hr & Hn & Hwin & Hle & Har).
  assert (Hin' : cursor_in_window ar').
  { subst ar'. unfold cursor_in_window, in_window in *. simpl. lia. }
  destruct (later_state cs ar' os' st Hin' Hst) as (Hs & He & Hmono & _).
  assert (Hcur' : s_Current ar' = r + widened_size size) by (now subst ar').
  assert (Hs' : s_Start (fst st) = s_Start ar) by (rewrite Hs; now subst ar').
  assert (He' : s_End (fst st) = s_End ar) by (rewrite He; now subst ar').
  assert (Halloc : in_allocated (fst st) r (widened_size size)).
  { unfold in_allocated, in_window in *. rewrite Hs', He'. lia. }
  split; [exact Halloc|]. split.
  { unfold in_allocated, in_window in *. rewrite Hs', He'. lia. }
  split.
  { unfold in_available. lia. }
  split.
  - intros b ar2 os2. rewrite isAllocatedRange_eq.
    destruct (range_checked _ _ _); [|discriminate].
    intros H. injection H as <- _ _.
    change (window_test (with_Mutex true (fst st))) with (window_test (fst st)).
    change (s_Current (with_Mutex true (fst st))) with (s_Current (fst st)).
    now apply (allocated_test_spec (fst st) r (widened_size size)).
  - intros b ar2 os2. rewrite isAvailableRange_eq.
    destruct (range_checked _ _ _); [|discriminate].
    intros H. injection H as <- _ _.
    change (s_Current (with_Mutex true (fst st))) with (s_Current (fst st)).
    apply andb_false_intro2. lia.
Qed.

(** X4. Address space is never handed out twice: once a range lies in
    the allocated region, also after it has been destroyed or purged,
    every allocation that succeeds later, after any sequence of hook
    invocations, starts at or after the end of that range. *)
Theorem allocated_never_reused
    ar os addr size cs st new_addr size' alignment zero commit r z c ar' os' :
  honours_MAP_FIXED ->
  cursor_in_window ar ->
  in_allocated ar addr size ->
  In st ((ar, os) :: states_after cs ar os) ->
  extentAlloc new_addr size' alignment zero commit (fst st) (snd st) =
    Return (r, z, c) ar' os' ->
  r <> NULL ->
  addr + size <= r.
Proof.
  intros Hfixed Hin Halloc Hst Hrun Hnz.
  destruct (later_state cs ar os st Hin Hst) as (_ & _ & Hmono & _).
  pose proof (extentAlloc_above_cursor _ _ _ _ _ _ _ _ _ _ _ _
                Hfixed Hrun Hnz) as Hge.
  unfold in_allocated in Halloc. lia.
Qed.

(** X10. The answers of the range predicates over time, compared
    between a state and any state a sequence of hook invocations
    reaches from it (both seen from inside a hook): [isValidRange]
    answers the same; a range [isAllocatedRange] accepts stays
    accepted; a range [isAvailableRange] rejects stays rejected. *)
Theorem predicates_over_time cs ar os st addr size :
  cursor_in_window ar ->
  In st (states_after cs ar os) ->
  (forall b b' ar1 os1 ar2 os2,
      isValidRange addr size (with_Mutex true ar) os = Return b ar1 os1 ->
      isValidRange addr size (with_Mutex true (fst st)) (snd st) =
        Return b' ar2 os2 ->
      b' = b) /\
  (forall b' ar1 os1 ar2 os2,
      isAllocatedRange addr size (with_Mutex true ar) os = Return true ar1 os1 ->
      isAllocatedRange addr size (with_Mutex true (fst st)) (snd st) =
        Return b' ar2 os2 ->
      b' = true) /\
  (forall b' ar1 os1 ar2 os2,
      isAvailableRange addr size (with_Mutex true ar) os = Return false ar1 os1 ->
      isAvailableRange addr size (with_Mutex true (fst st)) (snd st) =
        Return b' ar2 os2 ->
      b' = false).
Proof.
  intros Hin Hst.
  destruct (later_state cs ar os st Hin (or_intror Hst)) as (Hs & He & Hmono & _).
  pose proof (window_test_later ar (fst st) addr size Hs He) as Hw.
  split; [|split].
  - intros b b' ar1 os1 ar2 os2. rewrite !isValidRange_eq.
    destruct (range_checked _ _ _); [|discriminate].
    destruct (range_checked _ _ _); [|discriminate].
    intros H H'. injection H as <- _ _. injection H' as <- _ _. exact Hw.
  - intros b' ar1 os1 ar2 os2. rewrite !isAllocatedRange_eq.
    destruct (range_checked _ _ _); [|discriminate].
    destruct (range_checked _ _ _); [|discriminate].
    intros H H'. injection H as H _ _. injection H' as <- _ _.
    change (window_test (with_Mutex true ar)) with (window_test ar) in H.
    change (window_test (with_Mutex true (fst st)))
      with (window_test (fst st)).
    simpl in *. rewrite Hw.
    apply andb_prop in H as [-> H]. simpl. lia.
  - intros b' ar1 os1 ar2 os2. rewrite !isAvailableRange_eq.
    destruct (range_checked _ _ _); [|discriminate].
    destruct (range_checked _ _ _); [|discriminate].
    intros H H'. injection H as H _ _. injection H' as <- _ _.
    change (window_test (with_Mutex true ar)) with (window_test ar) in H.
    change (window_test (with_Mutex true (fst st)))
      with (window_test (fst st)).
    simpl in *. rewrite Hw.
    apply andb_false_iff in H as [-> | H]; [reflexivity|].
    apply andb_false_intro2. lia.
Qed.

End OverTime.

(** ** What the release hooks insist on *)

Section ReleasePreconditions.

Context {P : Platform}.

(** X5. [extentDestroy] returns only for a range that lies in the
    allocated region: on any other range it stops at its assertion.
    When it returns, the system was asked for the guard mapping of
    exactly that range and granted it at that address. *)
Theorem extentDestroy_only_allocated addr size committed ar os u ar' os' :
  Word.in_range addr -> Word.in_range size ->
  extentDestroy addr size committed ar os = Return u ar' os' ->
  in_allocated ar addr size /\
  snd (mmap os addr size PROT_NONE GUARD_FIXED) = addr /\
  os' = fst (mmap os addr size PROT_NONE GUARD_FIXED).
Proof.
  intros Haddr Hsize. rewrite extentDestroy_eq.
  destruct (s_Mutex ar); [discriminate|].
  unfold allocated_checked.
  destruct (range_checked _ _ _); [|discriminate]. simpl.
  destruct (allocated_test ar addr size) eqn:Halloc; [|discriminate].
  destruct (_ =? addr) eqn:Hmap; [|discriminate].
  intros H. injection H as _ _ <-.
  apply Z.eqb_eq in Hmap.
  split; [now apply allocated_test_spec | now split].
Qed.

(** What [purge_checked] amounts to: the part lies inside the extent,
    without any wrap-around, and the extent inside the allocated
    region. *)
Lemma purge_checked_inside ar addr size offset length :
  Word.in_range addr -> Word.in_range size ->
  Word.in_range offset -> Word.in_range length ->
  purge_checked ar addr size offset length = true ->
  offset + length <= size /\
  Word.add addr offset = addr + offset /\
  in_allocated ar addr size /\
  in_allocated ar (addr + offset) length.
Proof.
  intros Haddr Hsize Hoff Hlen Hchk.
  unfold purge_checked, allocated_checked in Hchk.
  apply andb_prop in Hchk as [Hchk Hpart].
  apply andb_prop in Hpart as [_ Hpart].
  apply andb_prop in Hchk as [Hchk Hext].
  apply andb_prop in Hext as [_ Hext].
  apply andb_prop in Hchk as [Hle Hsum].
  apply allocated_test_spec in Hext; [|assumption..].
  assert (Hstart : Word.add addr offset = addr + offset).
  { apply add_exact; try assumption.
    unfold in_allocated, in_window, Word.in_range in *. lia. }
  rewrite Hstart in Hpart.
  apply allocated_test_spec in Hpart; [| |assumption].
  2: { unfold in_allocated, in_window, Word.in_range in *. lia. }
  split; [|split; [exact Hstart | split; [exact Hext | exact Hpart]]].
  rewrite add_exact in Hsum; try assumption;
    unfold in_allocated, in_window, Word.in_range in *; lia.
Qed.

(** X6. A purge hook returns only when the part to purge lies inside
    the extent, [offset + length <= size] as integers (a sum that wraps
    around does not get through), and the extent lies in the allocated
    region.  When it returns, the system was asked to map exactly
    [[addr + offset, addr + offset + length)] afresh and granted it at
    that address. *)
Theorem purge_only_inside_extent addr size offset length ar os status ar' os' :
  Word.in_range addr -> Word.in_range size ->
  Word.in_range offset -> Word.in_range length ->
  extentPurgeLazy addr size offset length ar os = Return status ar' os' \/
  extentPurgeForced addr size offset length ar os = Return status ar' os' ->
  offset + length <= size /\
  in_allocated ar addr size /\
  in_allocated ar (addr + offset) length /\
  snd (mmap os (addr + offset) length RW ANON_PRIVATE_FIXED) = addr + offset /\
  os' = fst (mmap os (addr + offset) length RW ANON_PRIVATE_FIXED).
Proof.
  intros Haddr Hsize Hoff Hlen Hrun.
  assert (Hrun' :
    MutexLocker (extentPurgeCommon addr size offset length) ar os =
    Return status ar' os') by (destruct Hrun; assumption).
  clear Hrun. revert Hrun'.
  destruct (s_Mutex ar) eqn:Hm.
  { unfold MutexLocker. rewrite Hm. discriminate. }
  rewrite extentPurgeCommon_eq by exact Hm.
  destruct (purge_checked _ _ _ _ _) eqn:Hchk; [|discriminate].
  destruct (purge_checked_inside _ _ _ _ _ Haddr Hsize Hoff Hlen Hchk)
    as (Hsum & Hstart & Halloc & Hpart).
  cbv zeta. rewrite Hstart.
  destruct (_ =? _) eqn:Hmap; [|discriminate].
  intros H. injection H as _ _ <-. apply Z.eqb_eq in Hmap.
  repeat split; try assumption; apply Halloc || apply Hpart.
Qed.

End ReleasePreconditions.

(** ** Empty ranges *)

Section EmptyRanges.

Context {P : Platform}.

(** X7. The empty range is a valid range at every address from
    [s_Start] to [s_End], the end of the window included; at the cursor
    it is both allocated and available, so the two regions share their
    boundary. *)
Theorem empty_range_at_boundary ar os addr :
  Word.in_range addr ->
  s_Start ar <= addr <= s_End ar ->
  range_checked ar addr 0 = true ->
  isValidRange addr 0 ar os = Return true ar os /\
  (addr = s_Current ar ->
   isAllocatedRange addr 0 ar os = Return true ar os /\
   isAvailableRange addr 0 ar os = Return true ar os).
Proof.
  intros Haddr Hin Hchk.
  assert (Hadd : Word.add addr 0 = addr).
  { unfold Word.add. rewrite Z.add_0_r. now apply WordFacts.wrap_small. }
  assert (Hwin : window_test ar addr 0 = true).
  { unfold window_test. rewrite Hadd.
    rewrite !andb_true_iff, negb_true_iff. lia. }
  rewrite isValidRange_eq, isAllocatedRange_eq, isAvailableRange_eq, Hchk, Hwin.
  split; [reflexivity|]. intros ->. rewrite Hadd. simpl.
  split; f_equal; lia.
Qed.

End EmptyRanges.

(** ** When an allocation succeeds *)

Section AllocDecides.

Context {P : Platform}.



(** X11. A granted allocation skips fewer bytes than the (widened)
    alignment, and none at all when the cursor is already aligned. *)
Theorem alignment_skip_bound
    new_addr size alignment zero commit ar os r z c ar' os' :
  honours_MAP_FIXED ->
  Word.in_range (s_Current ar) ->
  Word.in_range size -> Word.in_range alignment ->
  extentAlloc new_addr size alignment zero commit ar os = Return (r, z, c) ar' os' ->
  r <> NULL ->
  0 <= r - s_Current ar < widened_alignment size alignment /\
  (s_Current ar mod widened_alignment size alignment = 0 -> r = s_Current ar).
Proof.
  intros Hfixed Hcur Hsize Halign Hrun Hnz.
  destruct (extentAlloc_granted _ _ _ _ _ _ _ _ _ _ _ _
              Hfixed Hcur Hsize Halign Hrun Hnz)
    as (Hpow & Hround & _).
  destruct (round_up_spec (s_Current ar) _ Hpow) as [Hb _].
  pose proof (is_pow2_range _ Hpow) as Hapos.
  rewrite <- Hround in Hb. split; [lia|].
  intros Hal. rewrite Hround. apply round_up_between; lia.
Qed.


End AllocDecides.

(** ** The window right after the reservation *)

Section FreshWindow.

Context {P : Platform}.

(** X12. In the window as [initialize] sets it up, of [len] bytes at
    [B], the cursor lies inside the window, which spans [len] bytes.
    Seen from inside a hook, [isAvailableRange] answers what
    [isValidRange] answers, so every range inside the window is
    available, and [isAllocatedRange] accepts nothing but the empty
    range at [B]. *)
Theorem reserved_window_fresh B len addr size os :
  0 < B -> 0 < len -> B + len < Word.modulus ->
  Word.in_range addr -> Word.in_range size ->
  let ar := with_Mutex true (reserved B len) in
  cursor_in_window ar /\
  s_End ar - s_Start ar = len /\
  isAvailableRange addr size ar os = isValidRange addr size ar os /\
  (forall ar' os',
      isAllocatedRange addr size ar os = Return true ar' os' ->
      addr = B /\ size = 0).
Proof.
  intros HB Hlen Hfit Haddr Hsize ar.
  assert (HE : s_End ar = B + len) by (apply reserved_End; lia).
  split; [unfold cursor_in_window; rewrite HE; simpl; lia|].
  split; [rewrite HE; simpl; lia|].
  rewrite isAvailableRange_eq, isAllocatedRange_eq, isValidRange_eq.
  destruct (range_checked ar addr size); [|split; [reflexivity | discriminate]].
  destruct (window_test ar addr size) eqn:Hw; simpl;
    [|split; [reflexivity | discriminate]].
  apply window_test_spec in Hw; [|assumption..].
  destruct Hw as (Hsum & Hlo & _). simpl in Hlo.
  split.
  - f_equal. lia.
  - intros ar' os' H. injection H as H _ _.
    rewrite add_exact in H by assumption.
    unfold Word.in_range in *. lia.
Qed.

End FreshWindow.

(** ** The further properties on the concrete platform *)

Lemma extent_stays_allocated_witness :
  in_allocated Further.after_alloc (Demo.base + 8192) 4096 /\
  ~ in_available Further.after_alloc (Demo.base + 8192) 4096.
Proof.
  pose proof (extent_stays_allocated (P := Demo.plain)
                NULL 4096 8192 false false Demo.idle Demo.quiet
                (Demo.base + 8192) true true
                Further.after_alloc Further.log_alloc
                [Destroy (Demo.base + 8192) 4096 true]
                (Further.after_alloc, Further.log_destroy)
                plain_honours_MAP_FIXED
                (in_range_const (s_Current Demo.idle) eq_refl)
                (in_range_const 4096 eq_refl)
                (in_range_const 8192 eq_refl)
                eq_refl ltac:(discriminate)
                (or_intror (or_introl eq_refl))) as H.
  destruct H as (H1 & _ & H3 & _). split; [exact H1 | exact H3].
Defined.

Lemma allocated_never_reused_witness : Demo.base + 4096 <= Demo.base + 4096.
Proof.
  apply (allocated_never_reused (P := Demo.plain)
           Demo.idle Demo.quiet Demo.base 4096
           [Destroy Demo.base 4096 true]
           (Demo.idle, [(Demo.base, 4096, PROT_NONE, GUARD_FIXED)])
           NULL 4096 4096 false false (Demo.base + 4096) true true
           (with_Current (Demo.base + 8192) Demo.idle)
           [(Demo.base + 4096, 4096, RW, ANON_PRIVATE_FIXED);
            (Demo.base, 4096, PROT_NONE, GUARD_FIXED)]
           plain_honours_MAP_FIXED).
  - unfold cursor_in_window. vm_compute. split; discriminate.
  - unfold in_allocated, in_window. vm_compute. repeat split; discriminate.
  - right. left. reflexivity.
  - reflexivity.
  - discriminate.
Defined.

Lemma predicates_over_time_witness :
  allocated_test Further.after_alloc Demo.base 4096 = true.
Proof.
  pose proof (predicates_over_time (P := Demo.plain)
                [Alloc NULL 4096 8192 false false] Demo.idle Demo.quiet
                (Further.after_alloc, Further.log_alloc)
                Demo.base 4096) as H.
  destruct H as (_ & H & _).
  - unfold cursor_in_window. vm_compute. split; discriminate.
  - left. reflexivity.
  - apply (H (allocated_test Further.after_alloc Demo.base 4096)
             Demo.busy Demo.quiet
             (with_Mutex true Further.after_alloc) Further.log_alloc).
    + reflexivity.
    + reflexivity.
Defined.

Lemma extentDestroy_only_allocated_witness :
  in_allocated Demo.idle Demo.base 4096.
Proof.
  apply (extentDestroy_only_allocated (P := Demo.plain) Demo.base 4096 true
           Demo.idle Demo.quiet tt Demo.idle
           [(Demo.base, 4096, PROT_NONE, GUARD_FIXED)]
           (in_range_const Demo.base eq_refl)
           (in_range_const 4096 eq_refl)).
  reflexivity.
Defined.

Lemma purge_only_inside_extent_witness :
  1024 + 2048 <= 4096 /\
  in_allocated Demo.idle Demo.base 4096 /\
  in_allocated Demo.idle (Demo.base + 1024) 2048.
Proof.
  pose proof (purge_only_inside_extent (P := Demo.plain)
                Demo.base 4096 1024 2048 Demo.idle Demo.quiet false Demo.idle
                [(Demo.base + 1024, 2048, RW, ANON_PRIVATE_FIXED)]
                (in_range_const Demo.base eq_refl)
                (in_range_const 4096 eq_refl)
                (in_range_const 1024 eq_refl)
                (in_range_const 2048 eq_refl)
                (or_introl eq_refl)) as H.
  destruct H as (H1 & H2 & H3 & _). split; [exact H1 | split; [exact H2 | exact H3]].
Defined.

Lemma empty_range_at_boundary_witness :
  isValidRange (P := Demo.plain) (s_Current Demo.busy) 0
               Demo.busy Demo.quiet =
    Return (P := Demo.plain) true Demo.busy Demo.quiet /\
  isAllocatedRange (P := Demo.plain) (s_Current Demo.busy) 0
                   Demo.busy Demo.quiet =
    Return (P := Demo.plain) true Demo.busy Demo.quiet /\
  isAvailableRange (P := Demo.plain) (s_Current Demo.busy) 0
                   Demo.busy Demo.quiet =
    Return (P := Demo.plain) true Demo.busy Demo.quiet.
Proof.
  assert (Hin : s_Start Demo.busy <= s_Current Demo.busy <= s_End Demo.busy)
    by (vm_compute; split; discriminate).
  pose proof (empty_range_at_boundary (P := Demo.plain) Demo.busy Demo.quiet
                (s_Current Demo.busy)
                (in_range_const (s_Current Demo.busy) eq_refl)
                Hin eq_refl) as [Hvalid Hboth].
  split; [exact Hvalid | exact (Hboth eq_refl)].
Defined.


Lemma alignment_skip_bound_witness :
  0 <= Demo.base + 8192 - s_Current Demo.idle < 8192.
Proof.
  apply (alignment_skip_bound (P := Demo.plain)
           NULL 4096 8192 false false Demo.idle Demo.quiet
           (Demo.base + 8192) true true
           Further.after_alloc Further.log_alloc
           plain_honours_MAP_FIXED
           (in_range_const (s_Current Demo.idle) eq_refl)
           (in_range_const 4096 eq_refl)
           (in_range_const 8192 eq_refl)
           eq_refl).
  discriminate.
Defined.


Lemma reserved_window_fresh_witness :
  isAvailableRange (P := Demo.plain) Demo.base 4096
                   (with_Mutex true (reserved Demo.base (2 ^ 20))) Demo.quiet =
  isValidRange (P := Demo.plain) Demo.base 4096
               (with_Mutex true (reserved Demo.base (2 ^ 20))) Demo.quiet.
Proof.
  pose proof (reserved_window_fresh (P := Demo.plain) Demo.base (2 ^ 20)
                Demo.base 4096 Demo.quiet eq_refl eq_refl eq_refl
                (in_range_const Demo.base eq_refl)
                (in_range_const 4096 eq_refl)) as H.
  destruct H as (_ & _ & H & _). exact H.
Defined.

(** ** Widening on a pure-capability build *)

Section Widening.

Context {P : Platform}.

(** X13. Whenever [extentAlloc] hands out an address, the alignment it
    used is a power of two, a multiple of the requested alignment and
    not smaller than it, and the size it mapped is not smaller than the
    requested size: the capability widening never narrows a request. *)
Theorem widening_never_narrows
    new_addr size alignment zero commit ar os r z c ar' os' :
  Word.in_range alignment ->
  extentAlloc new_addr size alignment zero commit ar os = Return (r, z, c) ar' os' ->
  r <> NULL ->
  is_pow2 (widened_alignment size alignment) /\
  widened_alignment size alignment mod alignment = 0 /\
  alignment <= widened_alignment size alignment /\
  size <= widened_size size.
Proof.
  intros Halign Hrun Hnz.
  apply extentAlloc_cases in Hrun.
  destruct Hrun as [(Hnull & _) | Hok]; [contradiction|].
  cbv zeta in Hok. destruct Hok as (_ & Hchk & _).
  unfold alloc_checked in Hchk.
  apply andb_prop in Hchk as [Hchk _].
  apply andb_prop in Hchk as [Hone Hwiden].
  destruct (widened_request size alignment Halign Hone Hwiden)
    as (Hpow & Hdiv & Hgrow).
  pose proof (is_pow2_range _ Hpow) as Hapos.
  pose proof (is_pow2_range _ (hasOneBitSet_is_pow2 _ Halign Hone)) as Hpos.
  split; [exact Hpow|]. split; [exact Hdiv|]. split; [|exact Hgrow].
  apply Z.mod_divide in Hdiv; [|lia].
  apply Z.divide_pos_le; [lia | exact Hdiv].
Qed.

End Widening.

Lemma widening_never_narrows_witness :
  widened_alignment (P := Demo.coarse) 100 4 mod 4 = 0 /\
  4 <= widened_alignment (P := Demo.coarse) 100 4 /\
  100 <= widened_size (P := Demo.coarse) 100.
Proof.
  pose proof (widening_never_narrows (P := Demo.coarse)
                NULL 100 4 false false Demo.idle Demo.quiet
                (Demo.base + 4096) true true
                (with_Current (Demo.base + 4096 + 112) Demo.idle)
                [(Demo.base + 4096, 112, RW, ANON_PRIVATE_FIXED)]
                (in_range_const 4 eq_refl) eq_refl ltac:(discriminate)) as H.
  destruct H as (_ & H). exact H.
Defined.
